(** * A shallow embedding of [models/bert_emb.py]

    The program is a from-scratch forward pass of a BERT-style sentence
    encoder written with numpy.  This development embeds

    - the numpy operations the program uses (indexing, broadcasting,
      [@], [np.split], [np.hstack], the reductions along an axis), with the
      Python exceptions they raise made explicit;
    - the program's own functions, under their own names, in the order of
      the source;
    - the loader that turns the flat weight store into the parameter tree.

    Conventions.  A 1-D array is a [list T], a 2-D array is a list of rows;
    the theorems speak about arrays with at least one row and one column (a
    list of rows cannot carry the column count of an array without rows).
    The scalar type [T] is abstract: the results hold for any arithmetic, in
    particular for binary64, the dtype the program computes in.  What is
    specific to binary64 (overflow, division of zero by zero, NaN) is
    evaluated on binary64 numbers.  The real numbers carry the sample data
    on which the results are run; they are not the arithmetic of the
    program. *)

From Stdlib Require Import ZArith Lia Reals Lra.
From Stdlib Require PrimFloat Uint63 FloatAxioms FloatOps SpecFloat.
From stdpp Require Import gmap strings list pretty.

(** ** Scalars *)

(** What numpy needs of a dtype to run the arithmetic of the program. *)
Class Arith (T : Type) := {
  of_Z : Z → T;
  fadd : T → T → T;
  fsub : T → T → T;
  fmul : T → T → T;
  fdiv : T → T → T;
  fsqrt : T → T
}.

(** The elementary functions and constants of [gelu] and [softmax]. *)
Class Elementary (T : Type) `{Arith T} := {
  fexp : T → T;
  ftanh : T → T;
  fpow : T → Z → T;
  fmax : T → T → T;
  fpi : T
}.

(** Exact arithmetic, on the real numbers: the scalars of the sample data,
    and of the facts about [relu], whose only operation is a maximum.  The
    program computes in binary64 ([float_arith] below), which rounds,
    overflows and has NaN: nothing that rests on the laws of addition,
    multiplication, division, the square root or the elementary functions
    of the real numbers is stated of the program. *)
#[export] Instance R_arith : Arith R := {|
  of_Z := IZR;
  fadd := Rplus;
  fsub := Rminus;
  fmul := Rmult;
  fdiv := Rdiv;
  fsqrt := sqrt
|}.

(** The elementary functions of exact arithmetic, for the sample data. *)
#[export] Instance R_elementary : Elementary R := {|
  fexp := exp;
  ftanh := tanh;
  fpow := powerRZ;
  fmax := Rmax;
  fpi := PI
|}.

(** binary64, the dtype numpy gives to a list of Python numbers. *)
Definition float_of_Z (z : Z) : PrimFloat.float :=
  match z with
  | Z0 => PrimFloat.zero
  | Zpos _ => PrimFloat.of_uint63 (Uint63.of_Z z)
  | Zneg _ => PrimFloat.opp (PrimFloat.of_uint63 (Uint63.of_Z (Z.opp z)))
  end.

#[export] Instance float_arith : Arith PrimFloat.float := {|
  of_Z := float_of_Z;
  fadd := PrimFloat.add;
  fsub := PrimFloat.sub;
  fmul := PrimFloat.mul;
  fdiv := PrimFloat.div;
  fsqrt := PrimFloat.sqrt
|}.

(** [np.maximum] on binary64: the first argument when it is NaN or not
    smaller than the second, the second otherwise; a NaN on either side
    comes out. *)
Definition maximum64 (a b : PrimFloat.float) : PrimFloat.float :=
  if PrimFloat.leb b a || PrimFloat.is_nan a then a else b.

Section Binary64.
Import PrimFloat.

(** [np.pi] *)
Definition pi64 : float := 0x1.921fb54442d18p+1%float.

(** The elementary functions of binary64.  [np.exp], [np.tanh] and the
    power are those of the math library of the platform, which IEEE 754
    does not fix to the last bit: they are parameters, and a result says
    what it needs of them. *)
Definition binary64 (exp64 tanh64 : float → float) (pow64 : float → Z → float)
  : Elementary float := {|
  fexp := exp64;
  ftanh := tanh64;
  fpow := pow64;
  fmax := maximum64;
  fpi := pi64
|}.
End Binary64.

(** ** Exceptions *)

Inductive exn :=
  | KeyError (key : string)
  | IndexError
  | ValueError
  | ZeroDivisionError.

Inductive result (A : Type) :=
  | Ok (a : A)
  | Raise (e : exn).
Arguments Ok {A} a.
Arguments Raise {A} e.

#[export] Instance result_ret : MRet result := λ A a, Ok a.
#[export] Instance result_bind : MBind result := λ A B k m,
  match m with
  | Ok a => k a
  | Raise e => Raise e
  end.

(** ** numpy arrays *)

(** [a[i]] for a Python integer [i]: a negative index counts from the end,
    an index outside [-n, n) raises [IndexError]. *)
Definition getitem {A} (a : list A) (i : Z) : result A :=
  let n := Z.of_nat (length a) in
  if decide (i < - n ∨ n ≤ i)%Z then Raise IndexError
  else match a !! Z.to_nat (if decide (i < 0)%Z then (i + n)%Z else i) with
       | Some x => Ok x
       | None => Raise IndexError
       end.

(** [a[ids]] for a list of integers: the rows at these indices. *)
Definition take_rows {A} (a : list A) (ids : list Z) : result (list A) :=
  mapM (getitem a) ids.

(** [range(n)] *)
Definition range (n : nat) : list Z := Z.of_nat <$> seq 0 n.

(** [a.shape[-1]] of a 2-D array with at least one row. *)
Definition ncols {A} (a : list (list A)) : nat :=
  match a with
  | [] => 0
  | row :: _ => length row
  end.

(** [a] is a 2-D array of shape [[r, c]]. *)
Definition shaped {A} (r c : nat) (a : list (list A)) : Prop :=
  length a = r ∧ Forall (λ row, length row = c) a.

#[export] Instance shaped_dec {A} r c (a : list (list A)) : Decision (shaped r c a).
Proof. unfold shaped. apply _. Defined.

(** [a.T] *)
Fixpoint transpose {A} (a : list (list A)) : list (list A) :=
  match a with
  | [] => []
  | row :: rest =>
      match rest with
      | [] => (λ x, [x]) <$> row
      | _ => zip_with cons row (transpose rest)
      end
  end.

(** Broadcasting of one axis: equal lengths, or one of them is 1. *)
Definition bdim (n m : nat) : option nat :=
  if decide (n = m) then Some n
  else if decide (n = 1) then Some m
  else if decide (m = 1) then Some n
  else None.

(** An axis of length 1 is repeated to the broadcast length. *)
Definition stretch {A} (n : nat) (l : list A) : list A :=
  match l with
  | [x] => replicate n x
  | _ => l
  end.

(** [np.split(x, sections, axis=-1)] with an integer number of sections. *)
Definition np_split {A} (x : list (list A)) (sections : Z) : result (list (list (list A))) :=
  let N := Z.of_nat (ncols x) in
  if decide (sections = 0)%Z then Raise ZeroDivisionError
  else if decide (N `mod` sections ≠ 0)%Z then Raise ValueError
  else if decide (sections ≤ 0)%Z then Raise ValueError
  else
    let width := Z.to_nat (N `div` sections) in
    Ok ((λ i, (λ row, take width (drop (i * width) row)) <$> x) <$> seq 0 (Z.to_nat sections)).

(** [np.hstack] of 2-D arrays: concatenation along the last axis. *)
Definition hstack {A} (arrays : list (list (list A))) : result (list (list A)) :=
  match arrays with
  | [] => Raise ValueError
  | a :: rest =>
      if decide (Forall (λ a', length a' = length a) rest)
      then Ok (foldl (zip_with app) a rest)
      else Raise ValueError
  end.

Section Arrays.
Context {T : Type} `{Arith T}.

#[local] Abbreviation vec := (list T).
#[local] Abbreviation mat := (list (list T)).

(** A binary ufunc on two 2-D arrays, with numpy's broadcasting. *)
Definition broadcast2 (f : T → T → T) (a b : mat) : result mat :=
  match bdim (length a) (length b), bdim (ncols a) (ncols b) with
  | Some r, Some c =>
      Ok (zip_with (zip_with f)
            (stretch r (stretch c <$> a)) (stretch r (stretch c <$> b)))
  | _, _ => Raise ValueError
  end.

(** A 1-D operand is broadcast as an array of one row. *)
Definition row_of (v : vec) : mat := [v].

(** A ufunc of one argument, or with a scalar operand. *)
Definition ufunc (f : T → T) (a : mat) : mat := (λ row : vec, f <$> row) <$> a.

(** [np.sum] of a 1-D array. *)
Definition np_sum (v : vec) : T := foldl fadd (of_Z 0) v.

(** The reductions [np.sum], [np.mean], [np.var] along [axis=-1] with
    [keepdims=True]: one column. *)
Definition keepdims (red : vec → T) (a : mat) : mat := (λ row : vec, [red row]) <$> a.

Definition mean1 (v : vec) : T := fdiv (np_sum v) (of_Z (Z.of_nat (length v))).

Definition var1 (v : vec) : T :=
  let m := mean1 v in
  mean1 ((λ x, fmul (fsub x m) (fsub x m)) <$> v).

(** [a @ b] for 2-D arrays. *)
Definition dot (u v : vec) : T := np_sum (zip_with fmul u v).

Definition matmul (a b : mat) : result mat :=
  if decide (ncols a = length b)
  then Ok ((λ row : vec, dot row <$> transpose b) <$> a)
  else Raise ValueError.

(** [x @ w + b] *)
Definition linear (x w : mat) (b : vec) : result mat :=
  xw ← matmul x w;
  broadcast2 fadd xw (row_of b).

(** [layer_norm], with [eps=1e-12]. *)
Definition eps : T := fdiv (of_Z 1) (of_Z (10 ^ 12)).

Definition layer_norm (x : mat) (g b : vec) : result mat :=
  let mean := keepdims mean1 x in
  let variance := keepdims var1 x in
  centred ← broadcast2 fsub x mean;
  scaled ← broadcast2 fmul (row_of g) centred;
  normed ← broadcast2 fdiv scaled (ufunc fsqrt (ufunc (λ v, fadd v eps) variance));
  broadcast2 fadd normed (row_of b).

(** [mean_pooling_and_normalization] *)
Definition mean_axis0 (x : mat) : vec :=
  match x with
  | [] => []
  | row :: rest =>
      (λ s, fdiv s (of_Z (Z.of_nat (length x)))) <$> foldl (zip_with fadd) row rest
  end.

Definition norm (o : vec) : T := fsqrt (dot o o).

Definition mean_pooling_and_normalization (x : mat) : vec :=
  let o := mean_axis0 x in
  (λ e, fdiv e (norm o)) <$> o.
End Arrays.

(** ** The parameter tree

    The dictionaries of the program, with their keys as field names.  [W]
    is the type of a weight and [V] the type of a bias or gain: the loader
    builds the tree from the arrays of the store as they are, the forward
    pass reads 2-D weights and 1-D biases. *)

Module Linear.
Record t (W V : Type) := Build { w : W; b : V }.
Arguments Build {W V}.
Arguments w {W V}.
Arguments b {W V}.
End Linear.

Module LayerNorm.
Record t (V : Type) := Build { g : V; b : V }.
Arguments Build {V}.
Arguments g {V}.
Arguments b {V}.
End LayerNorm.

Module Mlp.
Record t (W V : Type) := Build { c_fc : Linear.t W V; c_proj : Linear.t W V }.
Arguments Build {W V}.
Arguments c_fc {W V}.
Arguments c_proj {W V}.
End Mlp.

Module Attn.
Record t (W V : Type) := Build { c_attn : Linear.t W V; c_proj : Linear.t W V }.
Arguments Build {W V}.
Arguments c_attn {W V}.
Arguments c_proj {W V}.
End Attn.

Module Block.
Record t (W V : Type) := Build {
  mlp : Mlp.t W V;
  attn : Attn.t W V;
  ln_1 : LayerNorm.t V;
  ln_2 : LayerNorm.t V
}.
Arguments Build {W V}.
Arguments mlp {W V}.
Arguments attn {W V}.
Arguments ln_1 {W V}.
Arguments ln_2 {W V}.
End Block.

Module Params.
Record t (W V : Type) := Build {
  ln_0 : LayerNorm.t V;
  wte : W;
  wpe : W;
  wtte : W;
  blocks : list (Block.t W V);
  pooler : Linear.t W V
}.
Arguments Build {W V}.
Arguments ln_0 {W V}.
Arguments wte {W V}.
Arguments wpe {W V}.
Arguments wtte {W V}.
Arguments blocks {W V}.
Arguments pooler {W V}.
End Params.

Record hparams := { n_head : Z; n_ctx : Z }.

(** ** The forward pass *)

(** A [for] loop that rebinds its accumulator and may raise. *)
Fixpoint for_each {A B} (body : A → B → result A) (acc : A) (items : list B) : result A :=
  match items with
  | [] => Ok acc
  | item :: rest => acc' ← body acc item; for_each body acc' rest
  end.

(** [zip] of the unpacked [lists]: the tuples, as lists, up to the shortest
    argument. *)
Definition zip_star {A} (lists : list (list A)) : list (list A) := transpose lists.

Section Forward.
Context {T : Type} `{Elementary T}.

#[local] Abbreviation vec := (list T).
#[local] Abbreviation mat := (list (list T)).

(** A decimal literal [m * 10^-e]. *)
Definition decimal (m : Z) (e : Z) : T := fdiv (of_Z m) (of_Z (10 ^ e)).

Definition gelu1 (x : T) : T :=
  fmul (fmul (decimal 5 1) x)
    (fadd (of_Z 1)
       (ftanh (fmul (fsqrt (fdiv (of_Z 2) fpi))
                 (fadd x (fmul (decimal 44715 6) (fpow x 3)))))).

Definition gelu (x : mat) : mat := ufunc gelu1 x.

Definition relu (x : mat) : mat := ufunc (fmax (of_Z 0)) x.

(** [np.max] of a 1-D array: no identity, an empty array raises. *)
Definition np_max (v : vec) : result T :=
  match v with
  | [] => Raise ValueError
  | x :: rest => Ok (foldl fmax x rest)
  end.

Definition softmax (x : mat) : result mat :=
  maxima ← mapM (λ row : vec, m ← np_max row; Ok [m]) x;
  shifted ← broadcast2 fsub x maxima;
  let exp_x := ufunc fexp shifted in
  broadcast2 fdiv exp_x (keepdims np_sum exp_x).

Definition ffn (x : mat) (c_fc c_proj : Linear.t mat vec) : result mat :=
  h ← linear x (Linear.w c_fc) (Linear.b c_fc);
  linear (gelu h) (Linear.w c_proj) (Linear.b c_proj).

Definition attention (q k v : mat) : result mat :=
  scores ← matmul q (transpose k);
  let scale := fsqrt (of_Z (Z.of_nat (ncols q))) in
  weights ← softmax (ufunc (λ e, fdiv e scale) scores);
  matmul weights v.

Definition mha (x : mat) (c_attn c_proj : Linear.t mat vec) (n_head : Z) : result mat :=
  x ← linear x (Linear.w c_attn) (Linear.b c_attn);
  thirds ← np_split x 3;
  qkv_heads ← mapM (λ part : mat, np_split part n_head) thirds;
  out_heads ← mapM (λ qkv : list mat,
                      match qkv with
                      | [q; k; v] => attention q k v
                      | _ => Raise ValueError
                      end) (zip_star qkv_heads);
  merged ← hstack out_heads;
  linear merged (Linear.w c_proj) (Linear.b c_proj).

Definition transformer_block (x : mat) (block : Block.t mat vec) (n_head : Z) : result mat :=
  let '(Block.Build mlp attn ln_1 ln_2) := block in
  a ← mha x (Attn.c_attn attn) (Attn.c_proj attn) n_head;
  s ← broadcast2 fadd x a;
  x ← layer_norm s (LayerNorm.g ln_1) (LayerNorm.b ln_1);
  f ← ffn x (Mlp.c_fc mlp) (Mlp.c_proj mlp);
  s ← broadcast2 fadd x f;
  layer_norm s (LayerNorm.g ln_2) (LayerNorm.b ln_2).

Definition bert (inputs segment_ids : list Z) (params : Params.t mat vec) (n_head : Z)
  : result mat :=
  let '(Params.Build ln_0 wte wpe wtte blocks pooler) := params in
  tok ← take_rows wte inputs;
  pos ← take_rows wpe (range (length inputs));
  s ← broadcast2 fadd tok pos;
  seg ← take_rows wtte segment_ids;
  x ← broadcast2 fadd s seg;
  x ← layer_norm x (LayerNorm.g ln_0) (LayerNorm.b ln_0);
  for_each (λ x block, transformer_block x block n_head) x blocks.
End Forward.

(** ** The weight store and the loader *)

(** An array of the store: 1-D or 2-D. *)
Inductive tensor (T : Type) :=
  | Vec (v : list T)
  | Mat (m : list (list T)).
Arguments Vec {T} v.
Arguments Mat {T} m.

Section Loader.
Context {T : Type}.

(** [a.T]: a 1-D array is its own transpose. *)
Definition tensor_T (a : tensor T) : tensor T :=
  match a with
  | Vec v => Vec v
  | Mat m => Mat (transpose m)
  end.

Definition as_vec (a : tensor T) : result (list T) :=
  match a with
  | Vec v => Ok v
  | Mat _ => Raise ValueError
  end.

Definition as_mat (a : tensor T) : result (list (list T)) :=
  match a with
  | Vec _ => Raise ValueError
  | Mat m => Ok m
  end.

(** [np.hstack]: 1-D arrays are concatenated, 2-D arrays are concatenated
    along the last axis; arrays of different ranks cannot be stacked. *)
Definition np_hstack (arrays : list (tensor T)) : result (tensor T) :=
  match arrays with
  | [] => Raise ValueError
  | Vec v :: rest => vs ← mapM as_vec rest; Ok (Vec (v ++ concat vs))
  | Mat m :: rest => ms ← mapM as_mat rest; stacked ← hstack (m :: ms); Ok (Mat stacked)
  end.

(** [model[key]]: the store is a dictionary. *)
Definition item (model : gmap string (tensor T)) (key : string) : result (tensor T) :=
  match model !! key with
  | Some a => Ok a
  | None => Raise (KeyError key)
  end.

Definition prefix : string := "".
Definition n_layers : nat := 6.

Definition layer_key (i : nat) (name : string) : string :=
  prefix +:+ "encoder.layer." +:+ pretty i +:+ "." +:+ name.

Definition emb_key (name : string) : string := prefix +:+ "embeddings." +:+ name.

(** The fused projection of lines 48-51. *)
Definition c_attn_of (q k v : Linear.t (tensor T) (tensor T))
  : result (Linear.t (tensor T) (tensor T)) :=
  w ← np_hstack [tensor_T (Linear.w q); tensor_T (Linear.w k); tensor_T (Linear.w v)];
  b ← np_hstack [Linear.b q; Linear.b k; Linear.b v];
  Ok (Linear.Build w b).

(** The body of the loop over the layers. *)
Definition load_block (model : gmap string (tensor T)) (i : nat)
  : result (Block.t (tensor T) (tensor T)) :=
  qw ← item model (layer_key i "attention.self.query.weight");
  qb ← item model (layer_key i "attention.self.query.bias");
  let q := Linear.Build qw qb in
  kw ← item model (layer_key i "attention.self.key.weight");
  kb ← item model (layer_key i "attention.self.key.bias");
  let k := Linear.Build kw kb in
  vw ← item model (layer_key i "attention.self.value.weight");
  vb ← item model (layer_key i "attention.self.value.bias");
  let v := Linear.Build vw vb in
  c_attn ← c_attn_of q k v;
  pw ← item model (layer_key i "attention.output.dense.weight");
  pb ← item model (layer_key i "attention.output.dense.bias");
  let c_proj := Linear.Build (tensor_T pw) pb in
  let attn := Attn.Build c_attn c_proj in
  g1 ← item model (layer_key i "attention.output.LayerNorm.weight");
  b1 ← item model (layer_key i "attention.output.LayerNorm.bias");
  let ln_1 := LayerNorm.Build g1 b1 in
  fw ← item model (layer_key i "intermediate.dense.weight");
  fb ← item model (layer_key i "intermediate.dense.bias");
  let mlp_c_fc := Linear.Build (tensor_T fw) fb in
  ow ← item model (layer_key i "output.dense.weight");
  ob ← item model (layer_key i "output.dense.bias");
  let mlp_c_proj := Linear.Build (tensor_T ow) ob in
  let mlp := Mlp.Build mlp_c_fc mlp_c_proj in
  g2 ← item model (layer_key i "output.LayerNorm.weight");
  b2 ← item model (layer_key i "output.LayerNorm.bias");
  let ln_2 := LayerNorm.Build g2 b2 in
  Ok (Block.Build mlp attn ln_1 ln_2).

(** [load_encoder_hparams_and_params], from the dictionary that
    [torch.load] returned. *)
Definition load_encoder_hparams_and_params (model : gmap string (tensor T))
  : result (hparams * Params.t (tensor T) (tensor T)) :=
  wte ← item model (emb_key "word_embeddings.weight");
  wpe ← item model (emb_key "position_embeddings.weight");
  wtte ← item model (emb_key "token_type_embeddings.weight");
  g0 ← item model (emb_key "LayerNorm.weight");
  b0 ← item model (emb_key "LayerNorm.bias");
  let ln_0 := LayerNorm.Build g0 b0 in
  blocks ← mapM (load_block model) (seq 0 n_layers);
  pw ← item model "pooler.dense.weight";
  pb ← item model "pooler.dense.bias";
  let pooler := Linear.Build (tensor_T pw) pb in
  let params := Params.Build ln_0 wte wpe wtte blocks pooler in
  Ok ({| n_head := 12; n_ctx := 1024 |}, params).

(** The names the loader reads, in the order it reads them. *)
Definition layer_names : list string :=
  [ "attention.self.query.weight"; "attention.self.query.bias";
    "attention.self.key.weight"; "attention.self.key.bias";
    "attention.self.value.weight"; "attention.self.value.bias";
    "attention.output.dense.weight"; "attention.output.dense.bias";
    "attention.output.LayerNorm.weight"; "attention.output.LayerNorm.bias";
    "intermediate.dense.weight"; "intermediate.dense.bias";
    "output.dense.weight"; "output.dense.bias";
    "output.LayerNorm.weight"; "output.LayerNorm.bias" ].

Definition layer_keys (i : nat) : list string := layer_key i <$> layer_names.

Definition expected_keys : list string :=
  (emb_key <$> [ "word_embeddings.weight"; "position_embeddings.weight";
                 "token_type_embeddings.weight"; "LayerNorm.weight"; "LayerNorm.bias" ])
  ++ (i ← seq 0 n_layers; layer_keys i)
  ++ [ "pooler.dense.weight"; "pooler.dense.bias" ].
End Loader.

(** ** Reference definitions

    What the specification says of the attention module, of [softmax], of a
    well-formed parameter tree and of the names the loader needs, written
    independently of the program, to be compared with it. *)

Definition is_Ok {A} (m : result A) : bool :=
  match m with
  | Ok _ => true
  | Raise _ => false
  end.

(** The columns [start, start + len) of a 2-D array. *)
Definition cols_slice {A} (start len : nat) (x : list (list A)) : list (list A) :=
  (λ row, take len (drop start row)) <$> x.

(** A Python index brought into [0, n). *)
Definition wrap (n : nat) (i : Z) : Z :=
  if decide (i < 0)%Z then (i + Z.of_nat n)%Z else i.

Section Reference.
Context {T : Type} `{Elementary T}.

#[local] Abbreviation vec := (list T).
#[local] Abbreviation mat := (list (list T)).

(** Softmax of one row: subtract the maximum of the row, exponentiate,
    divide by the sum of the row. *)
Definition softmax1 (row : vec) : result vec :=
  m ← np_max row;
  let e := (λ t, fexp (fsub t m)) <$> row in
  Ok ((λ t, fdiv t (np_sum e)) <$> e).

(** Scaled dot-product attention of one head, every row of the scores
    normalised over all the positions. *)
Definition attention_spec (head_dim : nat) (q k v : mat) : result mat :=
  scores ← matmul q (transpose k);
  let scale := fsqrt (of_Z (Z.of_nat head_dim)) in
  weights ← mapM softmax1 (ufunc (λ e, fdiv e scale) scores);
  matmul weights v.

(** Multi-head attention by column ranges: Q, K and V are the three
    thirds of the fused projection, head [h] reads the columns
    [h * head_dim, (h + 1) * head_dim) of each, and row [i] of the merged
    array is the concatenation of the rows [i] of the heads. *)
Definition mha_spec (hidden_dim num_heads : nat) (x : mat)
    (qkv_projection output_projection : Linear.t mat vec) : result mat :=
  fused ← linear x (Linear.w qkv_projection) (Linear.b qkv_projection);
  let head_dim := hidden_dim `div` num_heads in
  let Q := cols_slice 0 hidden_dim fused in
  let K := cols_slice hidden_dim hidden_dim fused in
  let V := cols_slice (2 * hidden_dim) hidden_dim fused in
  let head (third : mat) (h : nat) := cols_slice (h * head_dim) head_dim third in
  heads ← mapM (λ h, attention_spec head_dim (head Q h) (head K h) (head V h))
               (seq 0 num_heads);
  linear ((λ rows : list vec, concat rows) <$> transpose heads)
         (Linear.w output_projection) (Linear.b output_projection).

(** The shapes of the parameters, for a hidden dimension [d]. *)
Definition linear_shaped (n_in n_out : nat) (p : Linear.t mat vec) : Prop :=
  shaped n_in n_out (Linear.w p) ∧ length (Linear.b p) = n_out.

Definition layer_norm_params_shaped (d : nat) (p : LayerNorm.t vec) : Prop :=
  length (LayerNorm.g p) = d ∧ length (LayerNorm.b p) = d.

Definition attn_shaped (d : nat) (p : Attn.t mat vec) : Prop :=
  linear_shaped d (3 * d) (Attn.c_attn p) ∧ linear_shaped d d (Attn.c_proj p).

Definition mlp_shaped (d : nat) (p : Mlp.t mat vec) : Prop :=
  let inner := length (Linear.b (Mlp.c_fc p)) in
  0 < inner ∧ linear_shaped d inner (Mlp.c_fc p) ∧ linear_shaped inner d (Mlp.c_proj p).

Definition block_shaped (d : nat) (p : Block.t mat vec) : Prop :=
  mlp_shaped d (Block.mlp p) ∧ attn_shaped d (Block.attn p)
  ∧ layer_norm_params_shaped d (Block.ln_1 p)
  ∧ layer_norm_params_shaped d (Block.ln_2 p).

Definition params_shaped (vocab_size n_ctx d : nat) (p : Params.t mat vec) : Prop :=
  shaped vocab_size d (Params.wte p) ∧ shaped n_ctx d (Params.wpe p)
  ∧ shaped 2 d (Params.wtte p)
  ∧ layer_norm_params_shaped d (Params.ln_0 p)
  ∧ Forall (block_shaped d) (Params.blocks p).

#[export] Instance linear_shaped_dec n_in n_out p : Decision (linear_shaped n_in n_out p).
Proof. unfold linear_shaped. apply _. Defined.

#[export] Instance layer_norm_params_shaped_dec d p :
  Decision (layer_norm_params_shaped d p).
Proof. unfold layer_norm_params_shaped. apply _. Defined.

#[export] Instance attn_shaped_dec d p : Decision (attn_shaped d p).
Proof. unfold attn_shaped. apply _. Defined.

#[export] Instance mlp_shaped_dec d p : Decision (mlp_shaped d p).
Proof. unfold mlp_shaped. apply _. Defined.

#[export] Instance block_shaped_dec d p : Decision (block_shaped d p).
Proof. unfold block_shaped. apply _. Defined.

#[export] Instance params_shaped_dec vocab_size n_ctx d p :
  Decision (params_shaped vocab_size n_ctx d p).
Proof. unfold params_shaped. apply _. Defined.
End Reference.

Section StoreReference.
Context {T : Type}.

Definition absent (model : gmap string (tensor T)) (key : string) : bool :=
  bool_decide (model !! key = None).

(** The first name, in reading order, that the store does not hold. *)
Definition first_missing_in (model : gmap string (tensor T)) (keys : list string)
  : option string :=
  List.find (absent model) keys.

Definition first_missing (model : gmap string (tensor T)) : option string :=
  first_missing_in model expected_keys.

(** The query, key and value tensors of layer [i], when all six are in
    the store, can be stacked: [np.hstack] accepts them. *)
Definition qkv_stackable (model : gmap string (tensor T)) (i : nat) : bool :=
  match model !! layer_key i "attention.self.query.weight",
        model !! layer_key i "attention.self.query.bias",
        model !! layer_key i "attention.self.key.weight",
        model !! layer_key i "attention.self.key.bias",
        model !! layer_key i "attention.self.value.weight",
        model !! layer_key i "attention.self.value.bias" with
  | Some qw, Some qb, Some kw, Some kb, Some vw, Some vb =>
      is_Ok (c_attn_of (Linear.Build qw qb) (Linear.Build kw kb) (Linear.Build vw vb))
  | _, _, _, _, _, _ => true
  end.

Definition store_stackable (model : gmap string (tensor T)) : bool :=
  forallb (qkv_stackable model) (seq 0 n_layers).
End StoreReference.

(** ** Sample data

    A small parameter tree over the real numbers (hidden dimension 2, two
    heads, one block, inner dimension 3, three tokens, four positions), a
    small store and the inputs of the scenarios. *)

Definition const_mat (r c : nat) (v : R) : list (list R) := replicate r (replicate c v).

Definition toy_linear (n_in n_out : nat) : Linear.t (list (list R)) (list R) :=
  Linear.Build (const_mat n_in n_out 1%R) (replicate n_out 0%R).

Definition toy_norm (d : nat) : LayerNorm.t (list R) :=
  LayerNorm.Build (replicate d 1%R) (replicate d 0%R).

Definition toy_block : Block.t (list (list R)) (list R) :=
  Block.Build (Mlp.Build (toy_linear 2 3) (toy_linear 3 2))
              (Attn.Build (toy_linear 2 6) (toy_linear 2 2))
              (toy_norm 2) (toy_norm 2).

Definition toy_params : Params.t (list (list R)) (list R) :=
  Params.Build (toy_norm 2)
    [[1; 2]; [3; 4]; [5; 6]]%R
    (const_mat 4 2 1%R)
    [[0; 1]; [1; 0]]%R
    [toy_block]
    (toy_linear 2 2).

Definition toy_x : list (list R) := [[1; 2]; [3; 4]; [5; 6]]%R.

(** A store with every expected name: the biases and the parameters of the
    layer norms are vectors of dimension 2, the other weights are square. *)
Definition ends_with (suffix key : string) : bool :=
  String.eqb
    (String.substring (String.length key - String.length suffix) (String.length suffix) key)
    suffix.

Definition toy_tensor (key : string) : tensor R :=
  if ends_with "bias" key || ends_with "LayerNorm.weight" key
  then Vec [1; 2]%R
  else Mat [[1; 2]; [3; 4]]%R.

Definition toy_store : gmap string (tensor R) :=
  list_to_map ((λ key, (key, toy_tensor key)) <$> expected_keys).

(** The store without the key weight of layer 3. *)
Definition toy_store_incomplete : gmap string (tensor R) :=
  delete (layer_key 3 "attention.self.key.weight") toy_store.

(** The scenario of the finalizer, in binary64. *)
Definition cancelling_tokens : list (list PrimFloat.float) :=
  [[of_Z 1; of_Z 0]; [of_Z (-1); of_Z 0]].

Section Binary64Samples.
Import PrimFloat.

(** One token vector [[1e200, 1e200]]: its mean is not zero, the square
    of its norm is beyond the largest binary64 number. *)
Definition overflowing_tokens : list (list float) :=
  [[0x1.4e718d7d7625ap+664%float; 0x1.4e718d7d7625ap+664%float]].

(** A row of scores that are both [+inf]. *)
Definition infinite_scores : list (list float) := [[infinity; infinity]].
End Binary64Samples.

(** A store with every expected name in which the key weight of layer 0 is
    a 1-D array, so that the three weights of the layer cannot be stacked;
    and the same store without the bias of the pooler. *)
Definition toy_store_unstackable : gmap string (tensor R) :=
  <[layer_key 0 "attention.self.key.weight" := Vec [1%R]]> toy_store.

Definition toy_store_unstackable_incomplete : gmap string (tensor R) :=
  delete "pooler.dense.bias" toy_store_unstackable.


(** ** The script

    The part of the module-level code that follows the load: the loop over
    the sentences and the matrix of similarities.  The tokenizer is a
    collaborator of the program, here the function [encode] from a sentence
    to its token ids; the parameter tree is the one the forward pass
    reads. *)

(** [np.vstack] of 1-D arrays: one row per array. *)
Definition np_vstack {A} (arrays : list (list A)) : result (list (list A)) :=
  match arrays with
  | [] => Raise ValueError
  | v :: rest =>
      if decide (Forall (λ v', length v' = length v) rest)
      then Ok arrays
      else Raise ValueError
  end.

Section Script.
Context {T : Type} `{Elementary T}.

(** The body of the loop: the embedding of one sentence. *)
Definition embed (encode : string → list Z) (params : Params.t (list (list T)) (list T))
    (n_head : Z) (sentence : string) : result (list T) :=
  let sentence_ids := encode sentence in
  logits ← bert sentence_ids (replicate (length sentence_ids) 0%Z) params n_head;
  Ok (mean_pooling_and_normalization logits).

(** [np.vstack] and the product that the script prints. *)
Definition similarity_matrix (embeddings : list (list T)) : result (list (list T)) :=
  embeddings ← np_vstack embeddings;
  matmul embeddings (transpose embeddings).

(** The loop over the sentences, then the matrix. *)
Definition similarities (encode : string → list Z)
    (params : Params.t (list (list T)) (list T)) (hparams : hparams)
    (sentences : list string) : result (list (list T)) :=
  embeddings ← for_each (λ embeddings sentence,
                           e ← embed encode params (n_head hparams) sentence;
                           Ok (embeddings ++ [e])) [] sentences;
  similarity_matrix embeddings.
End Script.

(** ** Reference definitions for the normalisations *)

Section RowReference.
Context {T : Type} `{Arith T}.

(** Layer normalisation of one row. *)
Definition layer_norm1 (g b row : list T) : list T :=
  let centred := (λ e, fsub e (mean1 row)) <$> row in
  let scaled := zip_with fmul g centred in
  let normed := (λ e, fdiv e (fsqrt (fadd (var1 row) eps))) <$> scaled in
  zip_with fadd normed b.

(** An array multiplied by a scalar. *)
Definition scale_by (k : T) (x : list (list T)) : list (list T) := ufunc (fmul k) x.
End RowReference.

(** A tokenizer for the sample sentences: two ids that depend on the
    length of the sentence. *)
Definition toy_encode (sentence : string) : list Z :=
  [Z.of_nat (String.length sentence `mod` 3); 1%Z].


(** * Properties *)

(** ** The exception monad *)

Lemma bind_Ok {A B} (a : A) (k : A → result B) : (Ok a ≫= k) = k a.
Proof. reflexivity. Qed.

Lemma mapM_Ok_fmap {A B} (f : A → result B) (g : A → B) (l : list A) :
  Forall (λ x, f x = Ok (g x)) l → mapM f l = Ok (g <$> l).
Proof.
  induction 1 as [|x l Hx _ IH]; [reflexivity|].
  cbn. rewrite Hx. cbn. rewrite IH. reflexivity.
Qed.

Lemma mapM_Ok_inv {A B} (f : A → result B) (l : list A) (k : list B) :
  mapM f l = Ok k → Forall2 (λ x y, f x = Ok y) l k.
Proof.
  revert k. induction l as [|x l IH]; intros k Hk; cbn in Hk.
  - injection Hk as <-. constructor.
  - destruct (f x) as [y|e] eqn:Hx; [|discriminate]. cbn in Hk.
    destruct (mapM f l) as [k'|e] eqn:Hl; [|discriminate]. cbn in Hk.
    injection Hk as <-. constructor; [exact Hx | apply IH; reflexivity].
Qed.

Lemma mapM_ext {A B} (f g : A → result B) (l : list A) :
  Forall (λ x, f x = g x) l → mapM f l = mapM g l.
Proof.
  induction 1 as [|x l Hx _ IH]; [reflexivity|].
  cbn. rewrite Hx, IH. reflexivity.
Qed.

(** ** Shapes *)

Lemma shaped_cons_inv {A} r c (row : list A) (a : list (list A)) :
  shaped r c (row :: a) → ∃ r', r = S r' ∧ length row = c ∧ shaped r' c a.
Proof.
  intros [Hlen Hall]. apply Forall_cons in Hall as [Hrow Hall].
  exists (length a). repeat split; [cbn in Hlen; lia | assumption..].
Qed.

Lemma shaped_ncols {A} r c (a : list (list A)) : shaped r c a → 0 < r → ncols a = c.
Proof.
  intros [Hlen Hall] Hr. destruct a as [|row a]; [cbn in Hlen; lia|].
  apply Forall_cons in Hall as [Hrow _]. exact Hrow.
Qed.

Lemma shaped_fmap {A B} r c c' (f : list A → list B) (a : list (list A)) :
  shaped r c a → (∀ row, length row = c → length (f row) = c') →
  shaped r c' (f <$> a).
Proof.
  intros [Hlen Hall] Hf. split; [rewrite length_fmap; exact Hlen|].
  apply Forall_fmap. eapply Forall_impl; [exact Hall|]. exact Hf.
Qed.

Lemma shaped_lookup {A} r c (a : list (list A)) i row :
  shaped r c a → a !! i = Some row → length row = c.
Proof. intros [_ Hall] Hi. eapply Forall_lookup_1 in Hall; eauto. Qed.

Lemma shaped_zip_with {A B C} r c (f : A → B → C) (a : list (list A)) (b : list (list B)) :
  shaped r c a → shaped r c b → shaped r c (zip_with (zip_with f) a b).
Proof.
  intros [Hla Ha] [Hlb Hb]. split; [rewrite length_zip_with; lia|].
  apply Forall_lookup_2. intros i row Hrow.
  apply lookup_zip_with_Some in Hrow as (ra & rb & -> & Hra & Hrb).
  rewrite length_zip_with.
  eapply Forall_lookup_1 in Ha, Hb; eauto. lia.
Qed.


(** ** Broadcasting *)

Lemma bdim_same n : bdim n n = Some n.
Proof. unfold bdim. rewrite decide_True; reflexivity. Qed.

Lemma bdim_1_r n : bdim n 1 = Some n.
Proof. unfold bdim. repeat case_decide; congruence. Qed.

Lemma bdim_1_l n : bdim 1 n = Some n.
Proof. unfold bdim. repeat case_decide; congruence. Qed.

Lemma bdim_Some n m k : bdim n m = Some k → (n = k ∨ n = 1) ∧ (m = k ∨ m = 1).
Proof. unfold bdim. repeat case_decide; intros [= <-]; lia. Qed.

Lemma stretch_same {A} n (l : list A) : length l = n → stretch n l = l.
Proof. destruct l as [|x [|y l]]; intros <-; reflexivity. Qed.

Lemma stretch_length {A} n k (l : list A) :
  length l = n → n = k ∨ n = 1 → length (stretch k l) = k.
Proof.
  intros Hl [->| ->]; [rewrite stretch_same; auto|].
  destruct l as [|x [|y l]]; try discriminate. cbn. apply length_replicate.
Qed.

Lemma stretch_fmap_same {A} c (a : list (list A)) :
  Forall (λ row, length row = c) a → stretch c <$> a = a.
Proof.
  induction 1 as [|row a Hrow _ IH]; [reflexivity|].
  cbn. rewrite IH, stretch_same; auto.
Qed.

Lemma stretch_shaped {A} r c r' c' (a : list (list A)) :
  shaped r c a → r = r' ∨ r = 1 → c = c' ∨ c = 1 →
  shaped r' c' (stretch r' (stretch c' <$> a)).
Proof.
  intros Ha Hr Hc.
  assert (shaped r c' (stretch c' <$> a)) as [Hlen Hall].
  { eapply shaped_fmap; [exact Ha|]. intros row Hrow. eapply stretch_length; eauto. }
  destruct Hr as [->| ->]; [rewrite stretch_same by exact Hlen; split; assumption|].
  destruct (stretch c' <$> a) as [|row [|row' rest]]; try discriminate.
  apply Forall_cons in Hall as [Hrow _]. cbn.
  split; [apply length_replicate | apply Forall_replicate; exact Hrow].
Qed.

Section BroadcastFacts.
Context {T : Type} `{Arith T}.
Implicit Types (a b : list (list T)) (v : list T) (f : T → T → T).

Lemma broadcast2_shaped f a b r c r' c' R C :
  shaped r c a → shaped r' c' b → 0 < r → 0 < r' →
  bdim r r' = Some R → bdim c c' = Some C →
  ∃ y, broadcast2 f a b = Ok y ∧ shaped R C y.
Proof.
  intros Ha Hb Hr Hr' HR HC. unfold broadcast2.
  rewrite (shaped_ncols _ _ _ Ha Hr), (shaped_ncols _ _ _ Hb Hr').
  rewrite (proj1 Ha), (proj1 Hb), HR, HC.
  apply bdim_Some in HR as [? ?], HC as [? ?].
  eexists. split; [reflexivity|].
  apply shaped_zip_with; eapply stretch_shaped; eauto.
Qed.

(** Two arrays of one shape: the operation is elementwise. *)
Lemma broadcast2_same f a b r c :
  shaped r c a → shaped r c b →
  broadcast2 f a b = Ok (zip_with (zip_with f) a b).
Proof.
  intros [Hla Ha] [Hlb Hb]. unfold broadcast2.
  assert (ncols a = ncols b) as ->.
  { destruct a as [|ra a], b as [|rb b]; cbn in *; try lia.
    apply Forall_cons in Ha as [-> _], Hb as [-> _]. reflexivity. }
  rewrite Hla, Hlb, !bdim_same.
  assert (Forall (λ row, length row = ncols b) a).
  { destruct b as [|rb b]; [destruct a; [constructor | cbn in *; lia]|].
    apply Forall_cons in Hb as [Hrb _]. cbn. rewrite Hrb. exact Ha. }
  assert (Forall (λ row, length row = ncols b) b).
  { destruct b as [|rb b]; [constructor|].
    pose proof Hb as Hb'. apply Forall_cons in Hb' as [Hrb _]. cbn. rewrite Hrb. exact Hb. }
  rewrite !stretch_fmap_same by assumption.
  rewrite !stretch_same by assumption. reflexivity.
Qed.

(** A 2-D array and a 1-D array of the row length: the 1-D array is
    combined with every row. *)
Lemma zip_with_replicate_r {A B C} (g : A → B → C) (l : list A) (y : B) n :
  length l = n → zip_with g l (replicate n y) = (λ x, g x y) <$> l.
Proof.
  intros <-. induction l as [|x l IH]; [reflexivity|]. cbn. rewrite IH. reflexivity.
Qed.

Lemma zip_with_replicate_l {A B C} (g : A → B → C) (x : A) (l : list B) n :
  length l = n → zip_with g (replicate n x) l = g x <$> l.
Proof.
  intros <-. induction l as [|y l IH]; [reflexivity|]. cbn. rewrite IH. reflexivity.
Qed.

Lemma broadcast2_row_r f a v r c :
  shaped r c a → 0 < r → length v = c →
  broadcast2 f a (row_of v) = Ok ((λ row, zip_with f row v) <$> a).
Proof.
  intros Ha Hr Hv. unfold broadcast2, row_of.
  rewrite (shaped_ncols _ _ _ Ha Hr). cbn [length ncols].
  rewrite (proj1 Ha), Hv, bdim_1_r, bdim_same.
  rewrite (stretch_fmap_same c a) by apply Ha.
  rewrite (stretch_same r a) by apply Ha.
  cbn [fmap list_fmap]. rewrite (stretch_same c v Hv).
  cbn [stretch]. rewrite zip_with_replicate_r by apply Ha. reflexivity.
Qed.

Lemma broadcast2_row_l f a v r c :
  shaped r c a → 0 < r → length v = c →
  broadcast2 f (row_of v) a = Ok ((λ row, zip_with f v row) <$> a).
Proof.
  intros Ha Hr Hv. unfold broadcast2, row_of.
  rewrite (shaped_ncols _ _ _ Ha Hr). cbn [length ncols].
  rewrite (proj1 Ha), Hv, bdim_1_l, bdim_same.
  rewrite (stretch_fmap_same c a) by apply Ha.
  rewrite (stretch_same r a) by apply Ha.
  cbn [fmap list_fmap]. rewrite (stretch_same c v Hv).
  cbn [stretch]. rewrite zip_with_replicate_l by apply Ha. reflexivity.
Qed.

(** A 2-D array and the column a reduction with [keepdims] made of it. *)
Lemma zip_with_keepdims f a (h : list T → T) c :
  Forall (λ row, length row = c) a →
  zip_with (zip_with f) a ((λ row, replicate c (h row)) <$> a)
  = (λ row, (λ e, f e (h row)) <$> row) <$> a.
Proof.
  induction 1 as [|row a' Hrow Ha IH]; [reflexivity|].
  cbn. rewrite IH. f_equal.
  rewrite zip_with_replicate_r by exact Hrow. reflexivity.
Qed.

Lemma broadcast2_keepdims f a (h : list T → T) r c :
  shaped r c a → 0 < c →
  broadcast2 f a (keepdims h a) = Ok ((λ row, (λ e, f e (h row)) <$> row) <$> a).
Proof.
  intros [Hla Ha] Hc. unfold broadcast2, keepdims.
  rewrite length_fmap, bdim_same.
  destruct (decide (a = [])) as [->|Hne]; [reflexivity|].
  assert (ncols a = c) as ->.
  { destruct a; [congruence|]. apply Forall_cons in Ha as [? _]. assumption. }
  assert (ncols ((λ row, [h row]) <$> a) = 1) as -> by (destruct a; [congruence | reflexivity]).
  rewrite bdim_1_r. f_equal.
  rewrite (stretch_fmap_same c a) by exact Ha.
  rewrite (stretch_same (length a) a) by reflexivity.
  rewrite stretch_same by (rewrite !length_fmap; reflexivity).
  rewrite <- list_fmap_compose.
  rewrite <- (zip_with_keepdims f a h c Ha). reflexivity.
Qed.
End BroadcastFacts.


(** ** Transposition and matrix product *)

Lemma transpose_shaped {A} r c (a : list (list A)) :
  shaped r c a → 0 < r → shaped c r (transpose a).
Proof.
  revert r. induction a as [|row a IH]; intros r Ha Hr.
  - destruct Ha as [Hlen _]. cbn in Hlen. lia.
  - apply shaped_cons_inv in Ha as (r' & -> & Hrow & Ha).
    destruct a as [|row' a'].
    + destruct Ha as [<- _]. cbn. split; [rewrite length_fmap; exact Hrow|].
      apply Forall_fmap, Forall_true. reflexivity.
    + assert (0 < r') as Hr' by (destruct Ha as [<- _]; cbn; lia).
      specialize (IH r' Ha Hr'). destruct IH as [Hlen Hall].
      change (transpose (row :: row' :: a'))
        with (zip_with cons row (transpose (row' :: a'))).
      split; [rewrite length_zip_with; lia|].
      apply Forall_lookup_2. intros i col Hcol.
      apply lookup_zip_with_Some in Hcol as (x & col' & -> & _ & Hcol').
      eapply Forall_lookup_1 in Hall; eauto. cbn. lia.
Qed.

Section ProductFacts.
Context {T : Type} `{Arith T}.
Implicit Types (a x w : list (list T)) (v g b : list T).

Lemma matmul_Ok a (b : list (list T)) n k :
  shaped n k a → 0 < n → length b = k →
  matmul a b = Ok ((λ row, dot row <$> transpose b) <$> a).
Proof.
  intros Ha Hn Hb. unfold matmul.
  rewrite (shaped_ncols _ _ _ Ha Hn), Hb, decide_True; reflexivity.
Qed.

Lemma matmul_shaped a (b : list (list T)) n k m :
  shaped n k a → shaped k m b → 0 < n → 0 < k →
  ∃ y, matmul a b = Ok y ∧ shaped n m y.
Proof.
  intros Ha Hb Hn Hk. eexists. split; [eapply matmul_Ok; eauto; apply Hb|].
  eapply shaped_fmap; [exact Ha|]. intros row _.
  rewrite length_fmap. apply (transpose_shaped _ _ _ Hb Hk).
Qed.

(** [linear] on arrays of matching shapes: every row of [x] is multiplied
    with the columns of [w] and shifted by [b]. *)
Lemma linear_Ok x w b n k m :
  shaped n k x → shaped k m w → length b = m → 0 < n → 0 < k →
  linear x w b
  = Ok ((λ row, zip_with fadd (dot row <$> transpose w) b) <$> x).
Proof.
  intros Hx Hw Hb Hn Hk. unfold linear.
  rewrite (matmul_Ok x w n k Hx Hn (proj1 Hw)). cbn.
  erewrite broadcast2_row_r; [|eapply shaped_fmap; [exact Hx|]|exact Hn|exact Hb].
  - rewrite <- list_fmap_compose. reflexivity.
  - intros row _. rewrite length_fmap. apply (transpose_shaped _ _ _ Hw Hk).
Qed.

Lemma linear_returns x w b n k m :
  shaped n k x → shaped k m w → length b = m → 0 < n → 0 < k →
  ∃ y, linear x w b = Ok y ∧ shaped n m y.
Proof.
  intros Hx Hw Hb Hn Hk. eexists. split; [eapply linear_Ok; eauto|].
  eapply shaped_fmap; [exact Hx|]. intros row _.
  rewrite length_zip_with, length_fmap.
  rewrite (proj1 (transpose_shaped _ _ _ Hw Hk)). lia.
Qed.

Lemma ufunc_shaped (f : T → T) a r c : shaped r c a → shaped r c (ufunc f a).
Proof.
  intros Ha. eapply shaped_fmap; [exact Ha|]. intros row Hrow.
  rewrite length_fmap. exact Hrow.
Qed.

Lemma keepdims_shaped (h : list T → T) a r c : shaped r c a → shaped r 1 (keepdims h a).
Proof. intros Ha. eapply shaped_fmap; [exact Ha|]. reflexivity. Qed.

Lemma layer_norm_shaped x g b r c :
  shaped r c x → 0 < r → 0 < c → length g = c → length b = c →
  ∃ y, layer_norm x g b = Ok y ∧ shaped r c y.
Proof.
  intros Hx Hr Hc Hg Hb. unfold layer_norm.
  rewrite (broadcast2_keepdims fsub x mean1 r c Hx Hc). cbn.
  set (centred := _ <$> x).
  assert (shaped r c centred) as Hcen.
  { eapply shaped_fmap; [exact Hx|]. intros row Hrow. rewrite length_fmap. exact Hrow. }
  rewrite (broadcast2_row_l fmul centred g r c Hcen Hr Hg). cbn.
  set (scaled := _ <$> centred).
  assert (shaped r c scaled) as Hsc.
  { eapply shaped_fmap; [exact Hcen|]. intros row Hrow. rewrite length_zip_with. lia. }
  destruct (broadcast2_shaped fdiv scaled
              (ufunc fsqrt (ufunc (λ t, fadd t eps) (keepdims var1 x))) r c r 1 r c)
    as (normed & -> & Hnormed); auto using bdim_same, bdim_1_r.
  { do 2 apply ufunc_shaped. apply keepdims_shaped with (c := c). exact Hx. }
  cbn. rewrite (broadcast2_row_r fadd normed b r c Hnormed Hr Hb).
  eexists. split; [reflexivity|].
  eapply shaped_fmap; [exact Hnormed|]. intros row Hrow. rewrite length_zip_with. lia.
Qed.
End ProductFacts.


(** ** Lists of results *)

Lemma mapM_Ok_Forall {A B} (f : A → result B) (P : B → Prop) (l : list A) :
  Forall (λ x, ∃ y, f x = Ok y ∧ P y) l →
  ∃ ys, mapM f l = Ok ys ∧ Forall P ys ∧ length ys = length l.
Proof.
  induction 1 as [|x l (y & Hy & HP) _ (ys & Hys & HPs & Hlen)].
  - exists []. repeat split. constructor.
  - exists (y :: ys). cbn. rewrite Hy. cbn. rewrite Hys. cbn.
    repeat split; [constructor; assumption | lia].
Qed.

Lemma mapM_fmap {A B C} (f : B → result C) (g : A → B) (l : list A) :
  mapM f (g <$> l) = mapM (λ x, f (g x)) l.
Proof. induction l as [|x l IH]; [reflexivity|]. cbn. rewrite IH. reflexivity. Qed.

(** ** [softmax] and [attention] *)

Section AttentionFacts.
Context {T : Type} `{Elementary T}.
Implicit Types (x q k v : list (list T)).

Lemma np_max_Ok (row : list T) : 0 < length row → ∃ m, np_max row = Ok m.
Proof. destruct row; cbn; [lia | eauto]. Qed.

(** The program's [softmax] normalises every row on its own. *)
Lemma softmax_rows x r c : shaped r c x → 0 < c → softmax x = mapM softmax1 x.
Proof.
  intros Hx Hc. unfold softmax.
  pose (rmax := λ row : list T,
          match row with [] => of_Z 0 | t :: rest => foldl fmax t rest end).
  assert (Forall (λ row, np_max row = Ok (rmax row)) x) as Hmax.
  { eapply Forall_impl; [apply Hx|]. intros [|t row] Hrow; [cbn in Hrow; lia | reflexivity]. }
  rewrite (mapM_Ok_fmap _ (λ row, [rmax row])).
  2:{ eapply Forall_impl; [exact Hmax|]. cbn. intros row ->. reflexivity. }
  cbn. change ((λ row, [rmax row]) <$> x) with (keepdims rmax x).
  rewrite (broadcast2_keepdims fsub x rmax r c Hx Hc). cbn.
  erewrite (broadcast2_keepdims fdiv _ np_sum r c); [| |exact Hc].
  2:{ apply ufunc_shaped. eapply shaped_fmap; [exact Hx|].
      intros row Hrow. rewrite length_fmap. exact Hrow. }
  symmetry. unfold ufunc. rewrite <- !list_fmap_compose.
  apply mapM_Ok_fmap. eapply Forall_impl; [exact Hmax|].
  intros row Hrow. unfold softmax1. rewrite Hrow.
  unfold mbind, result_bind, compose. f_equal.
  change ((λ t, fexp (fsub t (rmax row))) <$> row)
    with ((fexp ∘ (λ t, fsub t (rmax row))) <$> row).
  rewrite list_fmap_compose. reflexivity.
Qed.

Lemma softmax_shaped x r c :
  shaped r c x → 0 < c → ∃ y, softmax x = Ok y ∧ shaped r c y.
Proof.
  intros Hx Hc. rewrite (softmax_rows x r c Hx Hc).
  destruct (mapM_Ok_Forall softmax1 (λ out, length out = c) x) as (y & Hy & Hall & Hlen).
  { eapply Forall_impl; [apply Hx|]. intros row Hrow. cbn beta in Hrow.
    destruct (np_max_Ok row) as [m Hm]; [lia|].
    unfold softmax1. rewrite Hm. cbn. eexists. split; [reflexivity|].
    rewrite !length_fmap. exact Hrow. }
  exists y. split; [exact Hy|]. split; [rewrite Hlen; apply Hx | exact Hall].
Qed.

(** [attention] scales by the square root of the head dimension and
    normalises over all the positions. *)
Lemma attention_is_spec q k v n n' d :
  shaped n d q → shaped n' d k → 0 < n → 0 < n' → 0 < d →
  attention q k v = attention_spec d q k v.
Proof.
  intros Hq Hk Hn Hn' Hd. unfold attention, attention_spec.
  destruct (matmul_shaped q (transpose k) n d n' Hq) as (scores & -> & Hs); auto.
  { apply transpose_shaped; assumption. }
  cbn. rewrite (shaped_ncols _ _ _ Hq Hn).
  erewrite softmax_rows; [reflexivity| |exact Hn'].
  apply ufunc_shaped. exact Hs.
Qed.

Lemma attention_shaped q k v n n' d d' :
  shaped n d q → shaped n' d k → shaped n' d' v → 0 < n → 0 < n' → 0 < d →
  ∃ y, attention q k v = Ok y ∧ shaped n d' y.
Proof.
  intros Hq Hk Hv Hn Hn' Hd. unfold attention.
  destruct (matmul_shaped q (transpose k) n d n' Hq) as (scores & -> & Hs); auto.
  { apply transpose_shaped; assumption. }
  cbn.
  destruct (softmax_shaped (ufunc (λ e, fdiv e (fsqrt (of_Z (Z.of_nat (ncols q))))) scores) n n')
    as (weights & -> & Hw); auto.
  { apply ufunc_shaped. exact Hs. }
  cbn. eapply matmul_shaped; eauto.
Qed.
End AttentionFacts.

(** ** [np.split] and [np.hstack] *)

Lemma cols_slice_shaped {A} (x : list (list A)) r c start len :
  shaped r c x → start + len ≤ c → shaped r len (cols_slice start len x).
Proof.
  intros Hx Hle. eapply shaped_fmap; [exact Hx|]. intros row Hrow.
  rewrite length_take, length_drop. lia.
Qed.

Lemma np_split_Ok {A} (x : list (list A)) r s w :
  shaped r (s * w) x → 0 < r → 0 < s →
  np_split x (Z.of_nat s) = Ok ((λ i, cols_slice (i * w) w x) <$> seq 0 s).
Proof.
  intros Hx Hr Hs. unfold np_split.
  rewrite (shaped_ncols _ _ _ Hx Hr).
  rewrite decide_False by lia.
  rewrite Nat2Z.inj_mul, Z.mul_comm, Z_mod_mult, Z.div_mul by lia.
  rewrite decide_False by lia. rewrite decide_False by lia.
  rewrite !Nat2Z.id. reflexivity.
Qed.

Lemma zip_with_app_assoc {A} (a b c : list (list A)) :
  zip_with app (zip_with app a b) c = zip_with app a (zip_with app b c).
Proof.
  revert b c. induction a as [|x a IH]; intros [|y b] [|z c]; try reflexivity.
  cbn. rewrite IH, app_assoc. reflexivity.
Qed.

Lemma concat_transpose_cons {A} (a b : list (list A)) (rest : list (list (list A))) :
  (λ rows : list (list A), concat rows) <$> transpose (a :: b :: rest)
  = zip_with app a ((λ rows : list (list A), concat rows) <$> transpose (b :: rest)).
Proof.
  change (transpose (a :: b :: rest)) with (zip_with cons a (transpose (b :: rest))).
  generalize (transpose (b :: rest)). intros cols. revert cols.
  induction a as [|x a IH]; intros [|col cols]; try reflexivity.
  cbn. rewrite IH. reflexivity.
Qed.

Lemma concat_transpose_one {A} (a : list (list A)) :
  (λ rows : list (list A), concat rows) <$> transpose [a] = a.
Proof.
  cbn. rewrite <- list_fmap_compose.
  induction a as [|x a IH]; [reflexivity|]. cbn. rewrite IH, app_nil_r. reflexivity.
Qed.

(** Stacking is the concatenation of the rows of the same index. *)
Lemma foldl_zip_with_app {A} (a : list (list A)) (rest : list (list (list A))) :
  foldl (zip_with app) a rest
  = (λ rows : list (list A), concat rows) <$> transpose (a :: rest).
Proof.
  revert a. induction rest as [|b rest IH]; intros a.
  - rewrite concat_transpose_one. reflexivity.
  - cbn [foldl]. rewrite IH, concat_transpose_cons.
    destruct rest as [|c rest].
    + rewrite !concat_transpose_one. reflexivity.
    + rewrite !concat_transpose_cons. apply zip_with_app_assoc.
Qed.

Lemma hstack_Ok {A} (arrays : list (list (list A))) r :
  Forall (λ a, length a = r) arrays → arrays ≠ [] →
  hstack arrays = Ok ((λ rows : list (list A), concat rows) <$> transpose arrays).
Proof.
  intros Hall Hne. destruct arrays as [|a rest]; [congruence|].
  apply Forall_cons in Hall as [Ha Hrest]. unfold hstack.
  rewrite decide_True; [rewrite foldl_zip_with_app; reflexivity|].
  eapply Forall_impl; [exact Hrest|]. cbn. congruence.
Qed.

Lemma foldl_zip_with_app_shaped {A} (a : list (list A)) (rest : list (list (list A))) r c c0 :
  shaped r c0 a → Forall (shaped r c) rest →
  shaped r (c0 + length rest * c) (foldl (zip_with app) a rest).
Proof.
  revert a c0. induction rest as [|b rest IH]; intros a c0 Ha Hrest.
  - cbn. rewrite Nat.add_0_r. exact Ha.
  - apply Forall_cons in Hrest as [Hb Hrest]. cbn [foldl length].
    replace (c0 + S (length rest) * c) with ((c0 + c) + length rest * c) by lia.
    apply IH; [|exact Hrest].
    destruct Ha as [Hla Ha], Hb as [Hlb Hb].
    split; [rewrite length_zip_with; lia|].
    apply Forall_lookup_2. intros i row Hrow.
    apply lookup_zip_with_Some in Hrow as (ra & rb & -> & Hra & Hrb).
    rewrite length_app.
    eapply Forall_lookup_1 in Ha, Hb; eauto.
Qed.

Lemma hstack_shaped {A} (arrays : list (list (list A))) r c :
  Forall (shaped r c) arrays → arrays ≠ [] →
  ∃ y, hstack arrays = Ok y ∧ shaped r (length arrays * c) y
       ∧ y = (λ rows : list (list A), concat rows) <$> transpose arrays.
Proof.
  intros Hall Hne. eexists. split; [|split; [|reflexivity]].
  - apply hstack_Ok with (r := r); [|exact Hne].
    eapply Forall_impl; [exact Hall|]. intros a Ha. apply Ha.
  - destruct arrays as [|a rest]; [congruence|].
    apply Forall_cons in Hall as [Ha Hrest].
    rewrite <- foldl_zip_with_app. cbn [length].
    replace (S (length rest) * c) with (c + length rest * c) by lia.
    apply foldl_zip_with_app_shaped; assumption.
Qed.

(** [zip] of three lists computed from one list of indices. *)
Lemma zip_star_three {A B} (f g h : A → B) (l : list A) :
  zip_star [f <$> l; g <$> l; h <$> l] = (λ i, [f i; g i; h i]) <$> l.
Proof.
  unfold zip_star. cbn.
  induction l as [|i l IH]; [reflexivity|]. cbn. rewrite IH. reflexivity.
Qed.


(** ** Multi-head attention *)

Lemma mapM_cons {A B} (f : A → result B) (x : A) (l : list A) :
  mapM f (x :: l) = (y ← f x; k ← mapM f l; Ok (y :: k)).
Proof. reflexivity. Qed.

Lemma mapM_nil {A B} (f : A → result B) : mapM f [] = Ok [].
Proof. reflexivity. Qed.

(** The heads of one third of the fused projection. *)
Lemma np_split_heads {A} (third : list (list A)) L nh hd :
  shaped L (nh * hd) third → 0 < L → 0 < nh →
  np_split third (Z.of_nat nh) = Ok ((λ h, cols_slice (h * hd) hd third) <$> seq 0 nh).
Proof. apply np_split_Ok. Qed.

Lemma np_split_indivisible {A} (x : list (list A)) L d (sections : Z) :
  shaped L d x → 0 < L → (0 < sections)%Z → (Z.of_nat d `mod` sections ≠ 0)%Z →
  np_split x sections = Raise ValueError.
Proof.
  intros Hx HL Hs Hmod. unfold np_split.
  rewrite (shaped_ncols _ _ _ Hx HL).
  rewrite decide_False by lia. rewrite decide_True by exact Hmod. reflexivity.
Qed.

Lemma np_split_thirds {A} (fused : list (list A)) L d :
  shaped L (3 * d) fused → 0 < L →
  np_split fused 3
  = Ok [cols_slice 0 d fused; cols_slice d d fused; cols_slice (2 * d) d fused].
Proof.
  intros Hf HL. change 3%Z with (Z.of_nat 3).
  rewrite (np_split_Ok fused L 3 d Hf HL) by lia.
  cbn [seq fmap list_fmap]. rewrite Nat.mul_0_l, Nat.mul_1_l. reflexivity.
Qed.

Lemma qkv_heads_Ok {A} (fused : list (list A)) L nh hd :
  let d := nh * hd in
  let heads third := (λ h, cols_slice (h * hd) hd third) <$> seq 0 nh in
  shaped L (3 * d) fused → 0 < L → 0 < nh →
  (thirds ← np_split fused 3; mapM (λ part, np_split part (Z.of_nat nh)) thirds)
  = Ok [heads (cols_slice 0 d fused); heads (cols_slice d d fused);
        heads (cols_slice (2 * d) d fused)].
Proof.
  intros d heads Hf HL Hnh.
  rewrite (np_split_thirds fused L d Hf HL), bind_Ok.
  rewrite !mapM_cons, mapM_nil.
  rewrite !(np_split_heads _ L nh hd); auto;
    apply cols_slice_shaped with (c := 3 * d); first [exact Hf | lia].
Qed.

Section MhaFacts.
Context {T : Type} `{Elementary T}.
Implicit Types (x : list (list T)) (c_attn c_proj : Linear.t (list (list T)) (list T)).

Lemma head_shaped (third : list (list T)) L nh hd h :
  shaped L (nh * hd) third → h < nh → shaped L hd (cols_slice (h * hd) hd third).
Proof. intros Ht Hh. eapply cols_slice_shaped; [exact Ht | nia]. Qed.

Lemma mha_refines x c_attn c_proj L nh hd :
  let d := nh * hd in
  shaped L d x → 0 < L → 0 < nh → 0 < hd →
  linear_shaped d (3 * d) c_attn → linear_shaped d d c_proj →
  mha x c_attn c_proj (Z.of_nat nh) = mha_spec d nh x c_attn c_proj
  ∧ ∃ y, mha x c_attn c_proj (Z.of_nat nh) = Ok y ∧ shaped L d y.
Proof.
  intros d Hx HL Hnh Hhd [Hw Hb] [Hw' Hb'].
  assert (0 < d) as Hd by (unfold d; nia).
  unfold mha, mha_spec.
  destruct (linear_returns x (Linear.w c_attn) (Linear.b c_attn) L d (3 * d))
    as (fused & -> & Hf); auto.
  rewrite !bind_Ok.
  pose proof (qkv_heads_Ok fused L nh hd Hf HL Hnh) as Hq. cbn zeta in Hq.
  fold d in Hq.
  destruct (np_split fused 3) as [thirds|e]; [|discriminate Hq].
  rewrite bind_Ok. change (mapM (λ part, np_split part (Z.of_nat nh)) thirds = Ok
    [(λ h, cols_slice (h * hd) hd (cols_slice 0 d fused)) <$> seq 0 nh;
     (λ h, cols_slice (h * hd) hd (cols_slice d d fused)) <$> seq 0 nh;
     (λ h, cols_slice (h * hd) hd (cols_slice (2 * d) d fused)) <$> seq 0 nh]) in Hq.
  rewrite Hq, bind_Ok. clear Hq thirds.
  rewrite zip_star_three, mapM_fmap. cbn beta iota.
  assert (d `div` nh = hd) as -> by (unfold d; rewrite Nat.mul_comm; apply Nat.div_mul; lia).
  set (Q := cols_slice 0 d fused). set (K := cols_slice d d fused).
  set (V := cols_slice (2 * d) d fused).
  assert (shaped L d Q ∧ shaped L d K ∧ shaped L d V) as (HQ & HK & HV).
  { split; [|split]; apply cols_slice_shaped with (c := 3 * d); first [exact Hf | lia]. }
  rewrite (mapM_ext _ (λ h, attention_spec hd (cols_slice (h * hd) hd Q)
                              (cols_slice (h * hd) hd K) (cols_slice (h * hd) hd V))).
  2:{ apply Forall_seq. intros h Hh.
      apply attention_is_spec with (n := L) (n' := L); auto;
        apply head_shaped with (nh := nh); auto; lia. }
  destruct (mapM_Ok_Forall
              (λ h, attention_spec hd (cols_slice (h * hd) hd Q)
                      (cols_slice (h * hd) hd K) (cols_slice (h * hd) hd V))
              (shaped L hd) (seq 0 nh)) as (heads & -> & Hheads & Hlen).
  { apply Forall_seq. intros h Hh.
    rewrite <- (attention_is_spec _ _ _ L L hd); auto;
      try (apply head_shaped with (nh := nh); auto; lia).
    apply attention_shaped with (n' := L) (d := hd); auto;
      apply head_shaped with (nh := nh); auto; lia. }
  rewrite !bind_Ok. rewrite length_seq in Hlen.
  destruct (hstack_shaped heads L hd Hheads) as (merged & -> & Hm & ->).
  { intros ->. cbn in Hlen. lia. }
  rewrite bind_Ok. split; [reflexivity|].
  rewrite Hlen in Hm. fold d in Hm.
  apply linear_returns with (k := d); auto.
Qed.
End MhaFacts.


(** ** Feed-forward module and transformer block *)

Section BlockFacts.
Context {T : Type} `{Elementary T}.
Implicit Types (x : list (list T)).

Lemma ffn_returns x (c_fc c_proj : Linear.t (list (list T)) (list T)) L d m :
  shaped L d x → 0 < L → 0 < d → 0 < m →
  linear_shaped d m c_fc → linear_shaped m d c_proj →
  ∃ y, ffn x c_fc c_proj = Ok y ∧ shaped L d y.
Proof.
  intros Hx HL Hd Hm [Hw Hb] [Hw' Hb']. unfold ffn.
  destruct (linear_returns x (Linear.w c_fc) (Linear.b c_fc) L d m)
    as (h & -> & Hh); auto.
  rewrite bind_Ok. apply linear_returns with (k := m); auto.
  apply ufunc_shaped. exact Hh.
Qed.

(** The divisibility of the hidden dimension, on natural numbers. *)
Lemma heads_divide (d : nat) (n_head : Z) :
  (0 < n_head)%Z → (Z.of_nat d `mod` n_head = 0)%Z → 0 < d →
  ∃ nh hd, n_head = Z.of_nat nh ∧ d = nh * hd ∧ 0 < nh ∧ 0 < hd.
Proof.
  intros Hn Hmod Hd.
  exists (Z.to_nat n_head), (Z.to_nat (Z.of_nat d `div` n_head)).
  assert (Z.of_nat d = n_head * (Z.of_nat d `div` n_head))%Z as Hdiv.
  { rewrite (Z.div_mod (Z.of_nat d) n_head) at 1 by lia. lia. }
  assert (0 < Z.of_nat d `div` n_head)%Z by nia.
  repeat split; [lia | | lia | lia].
  apply Nat2Z.inj. rewrite Nat2Z.inj_mul, !Z2Nat.id by lia. exact Hdiv.
Qed.

Lemma mha_returns x (attn : Attn.t (list (list T)) (list T)) n_head L d :
  shaped L d x → 0 < L → 0 < d →
  (0 < n_head)%Z → (Z.of_nat d `mod` n_head = 0)%Z → attn_shaped d attn →
  ∃ a, mha x (Attn.c_attn attn) (Attn.c_proj attn) n_head = Ok a ∧ shaped L d a.
Proof.
  intros Hx HL Hd Hn Hmod [Ha Hp].
  destruct (heads_divide d n_head Hn Hmod Hd) as (nh & hd & -> & -> & Hnh & Hhd).
  apply (mha_refines x _ _ L nh hd); assumption.
Qed.

(** The block, step by step: the residual sum is normalised after each of
    the two sub-layers. *)
Lemma transformer_block_steps x (block : Block.t (list (list T)) (list T)) n_head L d :
  shaped L d x → 0 < L → 0 < d →
  (0 < n_head)%Z → (Z.of_nat d `mod` n_head = 0)%Z → block_shaped d block →
  ∃ a x' f x'',
    mha x (Attn.c_attn (Block.attn block)) (Attn.c_proj (Block.attn block)) n_head = Ok a
    ∧ shaped L d a
    ∧ layer_norm (zip_with (zip_with fadd) x a)
        (LayerNorm.g (Block.ln_1 block)) (LayerNorm.b (Block.ln_1 block)) = Ok x'
    ∧ shaped L d x'
    ∧ ffn x' (Mlp.c_fc (Block.mlp block)) (Mlp.c_proj (Block.mlp block)) = Ok f
    ∧ shaped L d f
    ∧ layer_norm (zip_with (zip_with fadd) x' f)
        (LayerNorm.g (Block.ln_2 block)) (LayerNorm.b (Block.ln_2 block)) = Ok x''
    ∧ shaped L d x''
    ∧ transformer_block x block n_head = Ok x''.
Proof.
  intros Hx HL Hd Hn Hmod (Hmlp & Hattn & [Hg1 Hb1] & [Hg2 Hb2]).
  destruct block as [mlp attn ln_1 ln_2]. cbn [Block.mlp Block.attn Block.ln_1 Block.ln_2] in *.
  destruct (mha_returns x attn n_head L d) as (a & Ha & Hsa); auto.
  destruct (layer_norm_shaped (zip_with (zip_with fadd) x a)
              (LayerNorm.g ln_1) (LayerNorm.b ln_1) L d) as (x' & Hx' & Hsx'); auto.
  { apply shaped_zip_with; assumption. }
  destruct Hmlp as (Hm & Hfc & Hproj).
  destruct (ffn_returns x' (Mlp.c_fc mlp) (Mlp.c_proj mlp) L d _ Hsx' HL Hd Hm Hfc Hproj)
    as (f & Hf & Hsf).
  destruct (layer_norm_shaped (zip_with (zip_with fadd) x' f)
              (LayerNorm.g ln_2) (LayerNorm.b ln_2) L d) as (x'' & Hx'' & Hsx''); auto.
  { apply shaped_zip_with; assumption. }
  exists a, x', f, x''. repeat split; try assumption; try apply Hsa; try apply Hsx';
    try apply Hsf; try apply Hsx''.
  unfold transformer_block. rewrite Ha, bind_Ok.
  rewrite (broadcast2_same fadd x a L d Hx Hsa), bind_Ok, Hx', bind_Ok.
  rewrite Hf, bind_Ok, (broadcast2_same fadd x' f L d Hsx' Hsf), bind_Ok.
  exact Hx''.
Qed.
End BlockFacts.

(** ** Loops *)

Lemma for_each_invariant {A B} (body : A → B → result A) (P : A → Prop) acc items :
  P acc →
  Forall (λ item, ∀ a, P a → ∃ a', body a item = Ok a' ∧ P a') items →
  ∃ out, for_each body acc items = Ok out ∧ P out.
Proof.
  intros Hacc Hitems. revert acc Hacc.
  induction Hitems as [|item items Hitem _ IH]; intros acc Hacc.
  - exists acc. split; [reflexivity | exact Hacc].
  - destruct (Hitem acc Hacc) as (acc' & Hbody & Hacc'). cbn. rewrite Hbody, bind_Ok.
    apply IH. exact Hacc'.
Qed.

(** The successive values of the accumulator of a loop that returned. *)
Lemma for_each_trace {A B} (body : A → B → result A) acc items out :
  for_each body acc items = Ok out →
  ∃ states, length states = S (length items)
    ∧ states !! 0 = Some acc
    ∧ states !! length items = Some out
    ∧ ∀ i item, items !! i = Some item →
        ∃ s s', states !! i = Some s ∧ states !! S i = Some s' ∧ body s item = Ok s'.
Proof.
  revert acc. induction items as [|item items IH]; intros acc Hrun; cbn in Hrun.
  - injection Hrun as <-. exists [acc]. repeat split. intros i item Hi. discriminate.
  - destruct (body acc item) as [acc'|e] eqn:Hbody; [|discriminate].
    rewrite bind_Ok in Hrun. destruct (IH acc' Hrun) as (states & Hlen & H0 & Hlast & Hstep).
    exists (acc :: states). repeat split; [cbn; lia | exact Hlast |].
    intros [|i] it Hi; cbn in Hi.
    + injection Hi as <-. exists acc, acc'. repeat split; assumption.
    + apply Hstep. exact Hi.
Qed.

(** ** Indexing *)

Lemma getitem_nonneg {A} (a : list A) (i : Z) :
  (0 ≤ i < Z.of_nat (length a))%Z →
  ∃ x, a !! Z.to_nat i = Some x ∧ getitem a i = Ok x.
Proof.
  intros Hi. unfold getitem. cbn zeta.
  rewrite decide_False by lia. rewrite (decide_False (P := (i < 0)%Z)) by lia.
  destruct (a !! Z.to_nat i) as [x|] eqn:Hx; [eauto|].
  apply lookup_ge_None in Hx. lia.
Qed.

Lemma getitem_wrap {A} (a : list A) (i : Z) :
  (- Z.of_nat (length a) ≤ i < Z.of_nat (length a))%Z →
  getitem a i = getitem a (wrap (length a) i)
  ∧ (0 ≤ wrap (length a) i < Z.of_nat (length a))%Z.
Proof.
  intros Hi. unfold wrap.
  destruct (decide (i < 0)%Z) as [Hneg|Hpos]; [|split; [reflexivity | lia]].
  split; [|lia]. unfold getitem. cbn zeta.
  rewrite !(decide_False (P := (_ ∨ _))) by lia.
  rewrite (decide_True (P := (i < 0)%Z)) by lia.
  rewrite (decide_False (P := (i + Z.of_nat (length a) < 0)%Z)) by lia. reflexivity.
Qed.

Lemma take_rows_Ok {A} (a : list A) (ids : list Z) :
  Forall (λ i, 0 ≤ i < Z.of_nat (length a))%Z ids →
  ∃ rows, take_rows a ids = Ok rows
    ∧ Forall2 (λ i row, a !! Z.to_nat i = Some row) ids rows.
Proof.
  induction 1 as [|i ids Hi _ (rows & Hrows & Hall)].
  - exists []. split; [reflexivity | constructor].
  - destruct (getitem_nonneg a i Hi) as (x & Hx & Hget).
    exists (x :: rows). unfold take_rows in *. rewrite mapM_cons, Hget, bind_Ok, Hrows.
    split; [reflexivity | constructor; assumption].
Qed.

Lemma take_rows_wrap {A} (a : list A) (ids : list Z) :
  Forall (λ i, - Z.of_nat (length a) ≤ i < Z.of_nat (length a))%Z ids →
  take_rows a ids = take_rows a (wrap (length a) <$> ids).
Proof.
  intros Hids. unfold take_rows. rewrite mapM_fmap. apply mapM_ext.
  eapply Forall_impl; [exact Hids|]. intros i Hi. apply getitem_wrap. exact Hi.
Qed.

Lemma take_rows_shaped {A} (a : list (list A)) (ids : list Z) rows r c :
  shaped r c a → Forall2 (λ i row, a !! Z.to_nat i = Some row) ids rows →
  shaped (length ids) c rows.
Proof.
  intros Ha Hall. split; [symmetry; eapply Forall2_length; exact Hall|].
  apply Forall_lookup_2. intros p row Hrow.
  destruct (Forall2_lookup_r _ _ _ _ _ Hall Hrow) as (i & _ & Hi).
  eapply shaped_lookup; eauto.
Qed.

Lemma range_lookup n p : p < n → range n !! p = Some (Z.of_nat p).
Proof.
  intros Hp. unfold range. rewrite list_lookup_fmap, lookup_seq_lt by exact Hp. reflexivity.
Qed.

Lemma range_bounds n m : n ≤ m → Forall (λ i, 0 ≤ i < Z.of_nat m)%Z (range n).
Proof.
  intros Hle. unfold range. apply Forall_fmap, Forall_seq. intros i Hi. cbn. lia.
Qed.


(** ** The encoder pipeline *)

Section PipelineFacts.
Context {T : Type} `{Elementary T}.

Lemma bert_steps (inputs segment_ids : list Z) (params : Params.t (list (list T)) (list T))
    (n_head : Z) (vocab_size n_ctx d : nat) :
  params_shaped vocab_size n_ctx d params → 0 < d →
  (0 < n_head)%Z → (Z.of_nat d `mod` n_head = 0)%Z →
  0 < length inputs ≤ n_ctx → length segment_ids = length inputs →
  Forall (λ i, 0 ≤ i < Z.of_nat vocab_size)%Z inputs →
  Forall (λ s, 0 ≤ s < 2)%Z segment_ids →
  ∃ tok pos seg x1 out,
    Forall2 (λ i row, Params.wte params !! Z.to_nat i = Some row) inputs tok
    ∧ Forall2 (λ i row, Params.wpe params !! Z.to_nat i = Some row)
        (range (length inputs)) pos
    ∧ Forall2 (λ i row, Params.wtte params !! Z.to_nat i = Some row) segment_ids seg
    ∧ shaped (length inputs) d tok ∧ shaped (length inputs) d pos
    ∧ shaped (length inputs) d seg
    ∧ layer_norm (zip_with (zip_with fadd) (zip_with (zip_with fadd) tok pos) seg)
        (LayerNorm.g (Params.ln_0 params)) (LayerNorm.b (Params.ln_0 params)) = Ok x1
    ∧ shaped (length inputs) d x1
    ∧ for_each (λ x block, transformer_block x block n_head) x1 (Params.blocks params)
      = Ok out
    ∧ shaped (length inputs) d out
    ∧ bert inputs segment_ids params n_head = Ok out.
Proof.
  intros (Hwte & Hwpe & Hwtte & [Hg0 Hb0] & Hblocks) Hd Hn Hmod HL Hseg Hin Hsegs.
  destruct params as [ln_0 wte wpe wtte blocks pooler].
  cbn [Params.ln_0 Params.wte Params.wpe Params.wtte Params.blocks] in *.
  set (L := length inputs) in *.
  destruct (take_rows_Ok wte inputs) as (tok & Htok & Htok2).
  { rewrite (proj1 Hwte). exact Hin. }
  destruct (take_rows_Ok wpe (range L)) as (pos & Hpos & Hpos2).
  { rewrite (proj1 Hwpe). apply range_bounds. lia. }
  destruct (take_rows_Ok wtte segment_ids) as (seg & Hsg & Hsg2).
  { rewrite (proj1 Hwtte). exact Hsegs. }
  assert (shaped L d tok) as Hstok
    by exact (take_rows_shaped wte inputs tok _ d Hwte Htok2).
  assert (shaped L d pos) as Hspos.
  { pose proof (take_rows_shaped wpe (range L) pos _ d Hwpe Hpos2) as Hs.
    unfold range in Hs at 1. rewrite length_fmap, length_seq in Hs. exact Hs. }
  assert (shaped L d seg) as Hsseg.
  { pose proof (take_rows_shaped wtte segment_ids seg _ d Hwtte Hsg2) as Hs.
    rewrite Hseg in Hs. exact Hs. }
  set (s := zip_with (zip_with fadd) tok pos).
  assert (shaped L d s) as Hss by (apply shaped_zip_with; assumption).
  set (x0 := zip_with (zip_with fadd) s seg).
  assert (shaped L d x0) as Hsx0 by (apply shaped_zip_with; assumption).
  destruct (layer_norm_shaped x0 (LayerNorm.g ln_0) (LayerNorm.b ln_0) L d)
    as (x1 & Hx1 & Hsx1); auto; try lia.
  destruct (for_each_invariant (λ x block, transformer_block x block n_head)
              (shaped L d) x1 blocks Hsx1) as (out & Hout & Hsout).
  { eapply Forall_impl; [exact Hblocks|]. intros block Hblock x Hx.
    destruct (transformer_block_steps x block n_head L d)
      as (a & x' & f & x'' & _ & _ & _ & _ & _ & _ & _ & Hs & Hrun); auto; try lia.
    eauto. }
  exists tok, pos, seg, x1, out. repeat split; try assumption;
    try apply Hstok; try apply Hspos; try apply Hsseg; try apply Hsx1; try apply Hsout.
  unfold bert. fold L. rewrite Htok, bind_Ok, Hpos, bind_Ok.
  rewrite (broadcast2_same fadd tok pos L d Hstok Hspos), bind_Ok, Hsg, bind_Ok.
  fold s. rewrite (broadcast2_same fadd s seg L d Hss Hsseg), bind_Ok.
  fold x0. rewrite Hx1, bind_Ok. exact Hout.
Qed.

(** Indices in [-n, n) select the rows of their wrapped values. *)
Lemma bert_wrap (inputs segment_ids : list Z) (params : Params.t (list (list T)) (list T))
    (n_head : Z) :
  let vocab_size := length (Params.wte params) in
  let n_seg := length (Params.wtte params) in
  Forall (λ i, - Z.of_nat vocab_size ≤ i < Z.of_nat vocab_size)%Z inputs →
  Forall (λ s, - Z.of_nat n_seg ≤ s < Z.of_nat n_seg)%Z segment_ids →
  bert inputs segment_ids params n_head
  = bert (wrap vocab_size <$> inputs) (wrap n_seg <$> segment_ids) params n_head.
Proof.
  intros vocab_size n_seg Hin Hseg. unfold bert. destruct params. cbn in *.
  rewrite length_fmap.
  rewrite <- (take_rows_wrap _ inputs Hin), <- (take_rows_wrap _ segment_ids Hseg).
  reflexivity.
Qed.
End PipelineFacts.


(** ** The fused query, key and value projection *)

Lemma transpose_zip_with_app {A} (a b : list (list A)) r c c' :
  shaped r c a → shaped r c' b → 0 < r →
  transpose (zip_with app a b) = transpose a ++ transpose b.
Proof.
  revert b r. induction a as [|ra a IH]; intros b r Ha Hb Hr.
  - destruct Ha as [Hlen _]. cbn in Hlen. lia.
  - apply shaped_cons_inv in Ha as (r' & -> & Hra & Ha).
    destruct b as [|rb b]; [destruct Hb as [Hlen _]; cbn in Hlen; lia|].
    apply shaped_cons_inv in Hb as (r'' & [= <-] & Hrb & Hb).
    destruct a as [|ra' a'], b as [|rb' b'];
      try (destruct Ha as [Hla _], Hb as [Hlb _]; cbn in Hla, Hlb; lia).
    + cbn. apply fmap_app.
    + assert (0 < r') as Hr' by (destruct Ha as [<- _]; cbn; lia).
      change (transpose (zip_with app (ra :: ra' :: a') (rb :: rb' :: b')))
        with (zip_with cons (ra ++ rb)
                (transpose (zip_with app (ra' :: a') (rb' :: b')))).
      rewrite (IH (rb' :: b') r' Ha Hb Hr').
      change (transpose (ra :: ra' :: a')) with (zip_with cons ra (transpose (ra' :: a'))).
      change (transpose (rb :: rb' :: b')) with (zip_with cons rb (transpose (rb' :: b'))).
      apply zip_with_app.
      rewrite (proj1 (transpose_shaped _ _ _ Ha Hr')). exact Hra.
Qed.

Lemma zip_with_app_shaped {A} (a b : list (list A)) r c c' :
  shaped r c a → shaped r c' b → shaped r (c + c') (zip_with app a b).
Proof.
  intros [Hla Ha] [Hlb Hb]. split; [rewrite length_zip_with; lia|].
  apply Forall_lookup_2. intros i row Hrow.
  apply lookup_zip_with_Some in Hrow as (ra & rb & -> & Hra & Hrb).
  rewrite length_app. eapply Forall_lookup_1 in Ha, Hb; eauto.
Qed.

Lemma take_drop_middle_app {A} (u v w : list A) n m :
  length u = n → length v = m → take m (drop n (u ++ v ++ w)) = v.
Proof.
  intros <- <-. rewrite drop_app_length. apply take_app_length.
Qed.

Lemma take_drop_last_app {A} (u v w : list A) n m :
  length u + length v = n → length w = m → take m (drop n (u ++ v ++ w)) = w.
Proof.
  intros <- <-. rewrite app_assoc, <- length_app, drop_app_length.
  apply take_ge. lia.
Qed.

Section FusedProjection.
Context {T : Type} `{Arith T}.
Implicit Types (x qw kw vw : list (list T)) (qb kb vb : list T).

(** Stacking the three transposed weights and concatenating the three
    biases. *)
Lemma c_attn_of_Ok qw kw vw qb kb vb h d :
  shaped h d qw → shaped h d kw → shaped h d vw → 0 < h →
  c_attn_of (Linear.Build (Mat qw) (Vec qb)) (Linear.Build (Mat kw) (Vec kb))
            (Linear.Build (Mat vw) (Vec vb))
  = Ok (Linear.Build
          (Mat (zip_with app (zip_with app (transpose qw) (transpose kw)) (transpose vw)))
          (Vec (qb ++ kb ++ vb))).
Proof.
  intros Hq Hk Hv Hh. unfold c_attn_of.
  pose proof (transpose_shaped _ _ _ Hq Hh) as [Hlq _].
  pose proof (transpose_shaped _ _ _ Hk Hh) as [Hlk _].
  pose proof (transpose_shaped _ _ _ Hv Hh) as [Hlv _].
  cbn [Linear.w Linear.b tensor_T np_hstack mapM as_mat as_vec mbind result_bind
       mret result_ret].
  unfold hstack. rewrite decide_True by (repeat constructor; congruence).
  cbn [foldl concat mbind result_bind]. rewrite app_nil_r. reflexivity.
Qed.

(** One pass through the fused projection, split in three, is the three
    separate projections. *)
Lemma fused_linear_splits x qw kw vw qb kb vb L h d :
  shaped L d x → 0 < L → 0 < d → 0 < h →
  shaped h d qw → shaped h d kw → shaped h d vw →
  length qb = h → length kb = h → length vb = h →
  ∃ Q K V,
    linear x (transpose qw) qb = Ok Q
    ∧ linear x (transpose kw) kb = Ok K
    ∧ linear x (transpose vw) vb = Ok V
    ∧ shaped L h Q ∧ shaped L h K ∧ shaped L h V
    ∧ (fused ← linear x
                 (zip_with app (zip_with app (transpose qw) (transpose kw)) (transpose vw))
                 (qb ++ kb ++ vb);
       np_split fused 3) = Ok [Q; K; V].
Proof.
  intros Hx HL Hd Hh Hq Hk Hv Hqb Hkb Hvb.
  pose proof (transpose_shaped _ _ _ Hq Hh) as Htq.
  pose proof (transpose_shaped _ _ _ Hk Hh) as Htk.
  pose proof (transpose_shaped _ _ _ Hv Hh) as Htv.
  pose proof (transpose_shaped _ _ _ Htq Hd) as [Hlq _].
  pose proof (transpose_shaped _ _ _ Htk Hd) as [Hlk _].
  pose proof (transpose_shaped _ _ _ Htv Hd) as [Hlv _].
  set (row_out := λ (w : list (list T)) (b : list T) (row : list T),
                    zip_with fadd (dot row <$> transpose (transpose w)) b).
  assert (∀ w b, shaped h d w → length b = h →
            linear x (transpose w) b = Ok (row_out w b <$> x)
            ∧ shaped L h (row_out w b <$> x)) as Hlin.
  { intros w b Hw Hb. pose proof (transpose_shaped _ _ _ Hw Hh) as Htw.
    split; [apply (linear_Ok x (transpose w) b L d h); assumption|].
    eapply shaped_fmap; [exact Hx|]. intros row _. unfold row_out.
    rewrite length_zip_with, length_fmap.
    rewrite (proj1 (transpose_shaped _ _ _ Htw Hd)). lia. }
  destruct (Hlin qw qb Hq Hqb) as [HQ HsQ], (Hlin kw kb Hk Hkb) as [HK HsK],
    (Hlin vw vb Hv Hvb) as [HV HsV].
  exists (row_out qw qb <$> x), (row_out kw kb <$> x), (row_out vw vb <$> x).
  repeat split; try assumption; try apply HsQ; try apply HsK; try apply HsV.
  set (W := zip_with app (zip_with app (transpose qw) (transpose kw)) (transpose vw)).
  assert (shaped d (h + h + h) W) as HW by (repeat apply zip_with_app_shaped; assumption).
  rewrite (linear_Ok x W (qb ++ kb ++ vb) L d (h + h + h)); auto;
    [|rewrite !length_app; lia].
  rewrite bind_Ok.
  assert (transpose W = transpose (transpose qw) ++ transpose (transpose kw)
                        ++ transpose (transpose vw)) as ->.
  { unfold W.
    rewrite (transpose_zip_with_app _ (transpose vw) d (h + h) h); auto;
      [|apply zip_with_app_shaped; assumption].
    rewrite (transpose_zip_with_app (transpose qw) (transpose kw) d h h); auto.
    rewrite <- app_assoc. reflexivity. }
  assert (∀ row, zip_with fadd
                   (dot row <$> transpose (transpose qw) ++ transpose (transpose kw)
                               ++ transpose (transpose vw)) (qb ++ kb ++ vb)
                 = row_out qw qb row ++ row_out kw kb row ++ row_out vw vb row) as Hrow.
  { intros row. unfold row_out. rewrite !fmap_app.
    rewrite zip_with_app by (rewrite length_fmap; lia).
    rewrite zip_with_app by (rewrite length_fmap; lia). reflexivity. }
  assert (∀ w b row, shaped h d w → length b = h → length (row_out w b row) = h) as Hlen.
  { intros w b row Hw Hb. unfold row_out. rewrite length_zip_with, length_fmap.
    pose proof (transpose_shaped _ _ _ Hw Hh) as Htw.
    rewrite (proj1 (transpose_shaped _ _ _ Htw Hd)). lia. }
  erewrite (np_split_thirds _ L h).
  2:{ eapply shaped_fmap; [exact Hx|]. intros row _. rewrite Hrow, !length_app, !Hlen; auto. lia. }
  2:{ exact HL. }
  unfold cols_slice. rewrite <- !list_fmap_compose. f_equal.
  f_equal; [|f_equal; [|f_equal]];
    apply list_fmap_ext; intros i row _; unfold compose; rewrite Hrow.
  - apply (take_drop_middle_app [] _ _ 0 h); [reflexivity | apply Hlen; assumption].
  - apply take_drop_middle_app; apply Hlen; assumption.
  - apply take_drop_last_app; [rewrite !Hlen; auto; lia | apply Hlen; assumption].
Qed.
End FusedProjection.


(** ** The loader *)

Section LoaderFacts.
Context {T : Type}.
Implicit Types (model : gmap string (tensor T)).

Lemma first_missing_in_app_Some model keys keys' key :
  first_missing_in model keys = Some key →
  first_missing_in model (keys ++ keys') = Some key.
Proof.
  unfold first_missing_in. induction keys as [|k keys IH]; [discriminate|].
  cbn. destruct (absent model k); auto.
Qed.

Lemma first_missing_in_app_None model keys keys' :
  first_missing_in model keys = None →
  first_missing_in model (keys ++ keys') = first_missing_in model keys'.
Proof.
  unfold first_missing_in. induction keys as [|k keys IH]; [reflexivity|].
  cbn. destruct (absent model k); [discriminate | auto].
Qed.

Lemma first_missing_in_cons model key keys :
  first_missing_in model (key :: keys)
  = match model !! key with
    | None => Some key
    | Some _ => first_missing_in model keys
    end.
Proof.
  unfold first_missing_in, absent. cbn. destruct (model !! key); reflexivity.
Qed.

Lemma first_missing_in_Some model keys key :
  first_missing_in model keys = Some key → key ∈ keys ∧ model !! key = None.
Proof.
  intros Hfind. apply List.find_some in Hfind as [Hin Habs].
  split; [apply list_elem_of_In; exact Hin|].
  unfold absent in Habs. apply bool_decide_eq_true in Habs. exact Habs.
Qed.

Lemma first_missing_in_None model keys key :
  first_missing_in model keys = None → key ∈ keys → is_Some (model !! key).
Proof.
  intros Hfind Hin. apply list_elem_of_In in Hin.
  pose proof (List.find_none _ _ Hfind _ Hin) as Habs.
  unfold absent in Habs. apply bool_decide_eq_false in Habs.
  destruct (model !! key); [eauto | congruence].
Qed.

Lemma item_lookup model key :
  item model key = match model !! key with
                   | Some a => Ok a
                   | None => Raise (KeyError key)
                   end.
Proof. reflexivity. Qed.

(** Reading one name: either it is the first missing one, or the reading
    goes on. *)
Ltac read_key model key :=
  rewrite (item_lookup model key), (first_missing_in_cons model key);
  destruct (model !! key) eqn:?; [rewrite bind_Ok | reflexivity].

(** One layer: the loader raises [KeyError] for the first name of the layer
    that the store does not hold, and returns a block when it holds all. *)
Lemma load_block_outcome model i :
  qkv_stackable model i = true →
  match first_missing_in model (layer_keys i) with
  | Some key => load_block model i = Raise (KeyError key)
  | None => ∃ block, load_block model i = Ok block
  end.
Proof.
  intros Hst. unfold load_block, layer_keys, layer_names, qkv_stackable in *.
  cbn [fmap list_fmap].
  read_key model (layer_key i "attention.self.query.weight").
  read_key model (layer_key i "attention.self.query.bias").
  read_key model (layer_key i "attention.self.key.weight").
  read_key model (layer_key i "attention.self.key.bias").
  read_key model (layer_key i "attention.self.value.weight").
  read_key model (layer_key i "attention.self.value.bias").
  cbn zeta.
  destruct (c_attn_of _ _ _) as [c_attn|e]; [|discriminate Hst]. rewrite bind_Ok.
  read_key model (layer_key i "attention.output.dense.weight").
  read_key model (layer_key i "attention.output.dense.bias").
  read_key model (layer_key i "attention.output.LayerNorm.weight").
  read_key model (layer_key i "attention.output.LayerNorm.bias").
  read_key model (layer_key i "intermediate.dense.weight").
  read_key model (layer_key i "intermediate.dense.bias").
  read_key model (layer_key i "output.dense.weight").
  read_key model (layer_key i "output.dense.bias").
  read_key model (layer_key i "output.LayerNorm.weight").
  read_key model (layer_key i "output.LayerNorm.bias").
  eexists. reflexivity.
Qed.

Lemma load_blocks_outcome model (layers : list nat) :
  forallb (qkv_stackable model) layers = true →
  match first_missing_in model (i ← layers; layer_keys i) with
  | Some key => mapM (load_block model) layers = Raise (KeyError key)
  | None => ∃ blocks, mapM (load_block model) layers = Ok blocks
                      ∧ Forall2 (λ i block, load_block model i = Ok block) layers blocks
  end.
Proof.
  induction layers as [|i layers IH]; intros Hst.
  - exists []. split; [reflexivity | constructor].
  - cbn [forallb] in Hst. apply andb_true_iff in Hst as [Hi Hst].
    specialize (IH Hst). pose proof (load_block_outcome model i Hi) as Hblock.
    rewrite bind_cons, mapM_cons.
    destruct (first_missing_in model (layer_keys i)) as [key|] eqn:Hfirst.
    + rewrite (first_missing_in_app_Some _ _ _ _ Hfirst), Hblock. reflexivity.
    + rewrite (first_missing_in_app_None _ _ _ Hfirst).
      destruct Hblock as [block Hblock]. rewrite Hblock, bind_Ok.
      destruct (first_missing_in model (layers ≫= _)) as [key|].
      * rewrite IH. reflexivity.
      * destruct IH as (blocks & -> & Hall). rewrite bind_Ok.
        exists (block :: blocks). split; [reflexivity | constructor; assumption].
Qed.

(** The whole store. *)
Lemma load_outcome model :
  store_stackable model = true →
  match first_missing model with
  | Some key => load_encoder_hparams_and_params model = Raise (KeyError key)
  | None =>
      ∃ params,
        load_encoder_hparams_and_params model = Ok ({| n_head := 12; n_ctx := 1024 |}, params)
        ∧ model !! emb_key "word_embeddings.weight" = Some (Params.wte params)
        ∧ model !! emb_key "position_embeddings.weight" = Some (Params.wpe params)
        ∧ model !! emb_key "token_type_embeddings.weight" = Some (Params.wtte params)
        ∧ model !! emb_key "LayerNorm.weight" = Some (LayerNorm.g (Params.ln_0 params))
        ∧ model !! emb_key "LayerNorm.bias" = Some (LayerNorm.b (Params.ln_0 params))
        ∧ Forall2 (λ i block, load_block model i = Ok block)
            (seq 0 n_layers) (Params.blocks params)
        ∧ tensor_T <$> model !! "pooler.dense.weight"
          = Some (Linear.w (Params.pooler params))
        ∧ model !! "pooler.dense.bias" = Some (Linear.b (Params.pooler params))
  end.
Proof.
  intros Hst. unfold first_missing, expected_keys, load_encoder_hparams_and_params.
  cbn [fmap list_fmap app].
  read_key model (emb_key "word_embeddings.weight").
  read_key model (emb_key "position_embeddings.weight").
  read_key model (emb_key "token_type_embeddings.weight").
  read_key model (emb_key "LayerNorm.weight").
  read_key model (emb_key "LayerNorm.bias").
  cbn zeta.
  pose proof (load_blocks_outcome model (seq 0 n_layers) Hst) as Hblocks.
  destruct (first_missing_in model (seq 0 n_layers ≫= _)) as [key|] eqn:Hfirst.
  - rewrite (first_missing_in_app_Some _ _ _ _ Hfirst), Hblocks. reflexivity.
  - rewrite (first_missing_in_app_None _ _ _ Hfirst).
    destruct Hblocks as (blocks & -> & Hall). rewrite bind_Ok.
    read_key model "pooler.dense.weight".
    read_key model "pooler.dense.bias".
    eexists. repeat split; eassumption.
Qed.
End LoaderFacts.


(** * The properties of the specification *)

Section StructuralClaims.
Context {T : Type} `{Elementary T}.
Implicit Types (x : list (list T)).


(** C2: for an input of shape [[L, d]] with [d] divisible by the number
    of heads, [mha] is the attention module of the specification: the
    fused projection, its three thirds Q, K and V, for every head the
    columns of that head and [softmax (Q·Kᵗ / sqrt head_dim)·V] with every
    row of the scores normalised over all the positions, the heads
    concatenated along the last axis, the output projection; it returns an
    array of the shape of the input. *)
Theorem mha_is_attention_module x (attn : Attn.t (list (list T)) (list T))
    (n_head : Z) (L d : nat) :
  shaped L d x → 0 < L → 0 < d →
  (0 < n_head)%Z → (Z.of_nat d `mod` n_head = 0)%Z → attn_shaped d attn →
  mha x (Attn.c_attn attn) (Attn.c_proj attn) n_head
  = mha_spec d (Z.to_nat n_head) x (Attn.c_attn attn) (Attn.c_proj attn)
  ∧ ∃ y, mha x (Attn.c_attn attn) (Attn.c_proj attn) n_head = Ok y ∧ shaped L d y.
Proof.
  intros Hx HL Hd Hn Hmod [Ha Hp].
  destruct (heads_divide d n_head Hn Hmod Hd) as (nh & hd & -> & -> & Hnh & Hhd).
  rewrite Nat2Z.id. apply (mha_refines x _ _ L nh hd); assumption.
Qed.

(** C8: for a fused projection of shape [[L, 3 d]] and a positive number
    of heads, splitting Q, K and V into heads raises [ValueError] (the
    shape error of numpy) if and only if [d] is not divisible by the number
    of heads; when it is divisible the split returns, for each of Q, K and
    V, [n_head] chunks of shape [[L, d / n_head]].  The error of the split
    is the error of [mha]. *)
Theorem head_split_fails_iff_indivisible (fused : list (list T)) (n_head : Z) (L d : nat) :
  shaped L (3 * d) fused → 0 < L → (0 < n_head)%Z →
  let split_heads :=
    thirds ← np_split fused 3; mapM (λ part, np_split part n_head) thirds in
  (split_heads = Raise ValueError ↔ (Z.of_nat d `mod` n_head ≠ 0)%Z)
  ∧ ((Z.of_nat d `mod` n_head = 0)%Z →
     ∃ qs ks vs, split_heads = Ok [qs; ks; vs]
       ∧ Forall (λ heads, length heads = Z.to_nat n_head
                          ∧ Forall (shaped L (d `div` Z.to_nat n_head)) heads)
           [qs; ks; vs])
  ∧ (∀ x (c_attn c_proj : Linear.t (list (list T)) (list T)),
       linear x (Linear.w c_attn) (Linear.b c_attn) = Ok fused →
       (Z.of_nat d `mod` n_head ≠ 0)%Z →
       mha x c_attn c_proj n_head = Raise ValueError).
Proof.
  intros Hf HL Hn split_heads.
  assert ((Z.of_nat d `mod` n_head = 0)%Z →
          ∃ qs ks vs, split_heads = Ok [qs; ks; vs]
            ∧ Forall (λ heads, length heads = Z.to_nat n_head
                               ∧ Forall (shaped L (d `div` Z.to_nat n_head)) heads)
                [qs; ks; vs]) as Hok.
  { intros Hmod.
    assert (∃ nh hd, n_head = Z.of_nat nh ∧ d = nh * hd ∧ 0 < nh)
      as (nh & hd & Hn' & Hd & Hnh).
    { exists (Z.to_nat n_head), (d `div` Z.to_nat n_head).
      split; [lia|]. split; [|lia].
      apply Nat.Div0.div_exact. apply Nat2Z.inj.
      rewrite Nat2Z.inj_mod, Z2Nat.id by lia. exact Hmod. }
    subst n_head d. rewrite Nat2Z.id.
    replace ((nh * hd) `div` nh) with hd
      by (symmetry; rewrite (Nat.mul_comm nh hd); apply Nat.div_mul; lia).
    pose proof (qkv_heads_Ok fused L nh hd Hf HL Hnh) as Hq. cbn zeta in Hq.
    unfold split_heads. do 3 eexists. split; [exact Hq|].
    assert (∀ third : list (list T), shaped L (nh * hd) third →
              length ((λ h, cols_slice (h * hd) hd third) <$> seq 0 nh) = nh
              ∧ Forall (shaped L hd) ((λ h, cols_slice (h * hd) hd third) <$> seq 0 nh))
      as Hheads.
    { intros third Ht. split; [rewrite length_fmap, length_seq; reflexivity|].
      apply Forall_fmap, Forall_seq. intros h Hh. cbn.
      apply head_shaped with (nh := nh); [exact Ht | lia]. }
    repeat first [apply Forall_nil_2 | apply Forall_cons_2];
      apply Hheads;
      apply cols_slice_shaped with (c := 3 * (nh * hd)); first [exact Hf | lia]. }
  assert (shaped L d (cols_slice 0 d fused)) as HQ
    by (apply cols_slice_shaped with (c := 3 * d); [exact Hf | lia]).
  split; [|split; [exact Hok|]]; [split|].
  - intros Hraise Hmod. destruct (Hok Hmod) as (qs & ks & vs & Heq & _). congruence.
  - intros Hmod. unfold split_heads.
    rewrite (np_split_thirds fused L d Hf HL), bind_Ok, mapM_cons.
    rewrite (np_split_indivisible (cols_slice 0 d fused) L d); auto.
  - intros x c_attn c_proj Hlin Hmod. unfold mha.
    rewrite Hlin, bind_Ok, (np_split_thirds fused L d Hf HL), bind_Ok, mapM_cons.
    rewrite (np_split_indivisible (cols_slice 0 d fused) L d); auto.
Qed.
End StructuralClaims.


Lemma mha_is_attention_module_witness :
  mha toy_x (toy_linear 2 6) (toy_linear 2 2) 2
  = mha_spec 2 2 toy_x (toy_linear 2 6) (toy_linear 2 2).
Proof.
  apply (mha_is_attention_module toy_x (Attn.Build (toy_linear 2 6) (toy_linear 2 2)) 2 3 2);
    [compute_done | lia | lia | lia | reflexivity | compute_done].
Defined.

Lemma head_split_fails_iff_indivisible_witness :
  (thirds ← np_split (const_mat 3 6 1%R) 3; mapM (λ part, np_split part 4) thirds)
  = Raise ValueError.
Proof.
  apply (head_split_fails_iff_indivisible (const_mat 3 6 1%R) 4 3 2);
    [compute_done | lia | lia | discriminate].
Defined.


Section PipelineClaims.
Context {T : Type} `{Elementary T}.

(** C1: for a valid token sequence (token and segment ids of one length
    [L], with [0 < L <= n_ctx], token ids below the vocabulary size and
    segment ids 0 or 1) and a parameter tree of matching shapes, [bert]
    forms at every position the elementwise sum of the token row, the
    position row and the segment row, applies the input layer norm, runs
    the blocks one after the other, each on the output of the previous one,
    and returns the output of the last block, of shape [[L, d]]; the pooler
    has no part in the result. *)
Theorem bert_encoder_pipeline (inputs segment_ids : list Z)
    (params : Params.t (list (list T)) (list T)) (n_head : Z) (vocab_size n_ctx d : nat) :
  params_shaped vocab_size n_ctx d params → 0 < d →
  (0 < n_head)%Z → (Z.of_nat d `mod` n_head = 0)%Z →
  0 < length inputs ≤ n_ctx → length segment_ids = length inputs →
  Forall (λ i, 0 ≤ i < Z.of_nat vocab_size)%Z inputs →
  Forall (λ s, 0 ≤ s < 2)%Z segment_ids →
  ∃ x0 x1 states out,
    length x0 = length inputs
    ∧ (∀ p tok seg, inputs !! p = Some tok → segment_ids !! p = Some seg →
         ∃ rt rp rs,
           Params.wte params !! Z.to_nat tok = Some rt
           ∧ Params.wpe params !! p = Some rp
           ∧ Params.wtte params !! Z.to_nat seg = Some rs
           ∧ x0 !! p = Some (zip_with fadd (zip_with fadd rt rp) rs))
    ∧ layer_norm x0 (LayerNorm.g (Params.ln_0 params))
        (LayerNorm.b (Params.ln_0 params)) = Ok x1
    ∧ length states = S (length (Params.blocks params))
    ∧ states !! 0 = Some x1
    ∧ states !! length (Params.blocks params) = Some out
    ∧ (∀ i block, Params.blocks params !! i = Some block →
         ∃ s s', states !! i = Some s ∧ states !! S i = Some s'
                 ∧ transformer_block s block n_head = Ok s')
    ∧ bert inputs segment_ids params n_head = Ok out
    ∧ shaped (length inputs) d out
    ∧ ∀ pooler',
        bert inputs segment_ids
          (Params.Build (Params.ln_0 params) (Params.wte params) (Params.wpe params)
             (Params.wtte params) (Params.blocks params) pooler') n_head = Ok out.
Proof.
  intros Hp Hd Hn Hmod HL Hseg Hin Hsegs.
  destruct (bert_steps inputs segment_ids params n_head vocab_size n_ctx d)
    as (tok & pos & seg & x1 & out & Htok & Hpos & Hsg & Hstok & Hspos & Hsseg
        & Hx1 & Hsx1 & Hloop & Hsout & Hrun); auto.
  destruct (for_each_trace _ _ _ _ Hloop) as (states & Hlen & Hfirst & Hlast & Hstep).
  exists (zip_with (zip_with fadd) (zip_with (zip_with fadd) tok pos) seg), x1, states, out.
  split; [rewrite !length_zip_with, (proj1 Hstok), (proj1 Hspos), (proj1 Hsseg); lia|].
  split.
  { intros p t s Ht Hs.
    destruct (Forall2_lookup_l _ _ _ _ _ Htok Ht) as (rt & Hrt & Hwte).
    destruct (Forall2_lookup_l _ _ _ _ _ Hsg Hs) as (rs & Hrs & Hwtte).
    assert (p < length inputs) as Hlt by (apply lookup_lt_Some in Ht; exact Ht).
    destruct (Forall2_lookup_l _ _ _ _ _ Hpos (range_lookup _ _ Hlt)) as (rp & Hrp & Hwpe).
    rewrite Nat2Z.id in Hwpe.
    exists rt, rp, rs. repeat split; try assumption.
    rewrite !lookup_zip_with, Hrt, Hrp, Hrs. reflexivity. }
  repeat split; try assumption; try apply Hsout.
  intros pooler'. rewrite <- Hrun. destruct params. reflexivity.
Qed.

(** C10: [bert] checks neither the token ids nor the segment ids: an id in
    [[-n, 0)], for a table of [n] rows, raises nothing and selects row
    [id + n], so the call returns what it returns for the wrapped ids; in
    particular segment id [-1] selects row 1 of the two rows of the segment
    table. *)
Theorem bert_accepts_negative_ids (inputs segment_ids : list Z)
    (params : Params.t (list (list T)) (list T)) (n_head : Z) (vocab_size n_ctx d : nat) :
  params_shaped vocab_size n_ctx d params → 0 < d →
  (0 < n_head)%Z → (Z.of_nat d `mod` n_head = 0)%Z →
  0 < length inputs ≤ n_ctx → length segment_ids = length inputs →
  Forall (λ i, - Z.of_nat vocab_size ≤ i < Z.of_nat vocab_size)%Z inputs →
  Forall (λ s, -2 ≤ s < 2)%Z segment_ids →
  (∃ out, bert inputs segment_ids params n_head = Ok out
          ∧ bert (wrap vocab_size <$> inputs) (wrap 2 <$> segment_ids) params n_head = Ok out
          ∧ shaped (length inputs) d out)
  ∧ (∃ row1, Params.wtte params !! 1 = Some row1
             ∧ getitem (Params.wtte params) (-1) = Ok row1).
Proof.
  intros Hp Hd Hn Hmod HL Hseg Hin Hsegs.
  pose proof Hp as (Hwte & _ & Hwtte & _).
  split.
  - destruct (bert_steps (wrap vocab_size <$> inputs) (wrap 2 <$> segment_ids)
                params n_head vocab_size n_ctx d)
      as (_ & _ & _ & _ & out & _ & _ & _ & _ & _ & _ & _ & _ & _ & Hsout & Hrun); auto.
    + rewrite length_fmap. exact HL.
    + rewrite !length_fmap. exact Hseg.
    + apply Forall_fmap. eapply Forall_impl; [exact Hin|]. intros i Hi.
      cbn beta in Hi. unfold compose.
      rewrite <- (proj1 Hwte) in Hi |- *. apply getitem_wrap. exact Hi.
    + apply Forall_fmap. eapply Forall_impl; [exact Hsegs|]. intros s Hs.
      cbn beta in Hs. unfold compose, wrap. case_decide; lia.
    + exists out. rewrite length_fmap in Hsout.
      split; [|split; [exact Hrun | exact Hsout]].
      rewrite <- Hrun. rewrite <- (proj1 Hwte), <- (proj1 Hwtte). apply bert_wrap.
      * rewrite (proj1 Hwte). exact Hin.
      * rewrite (proj1 Hwtte). exact Hsegs.
  - destruct (Params.wtte params) as [|row0 [|row1 [|row2 rest]]];
      try (destruct Hwtte as [Hlen _]; cbn in Hlen; lia).
    exists row1. split; reflexivity.
Qed.
End PipelineClaims.

Lemma bert_encoder_pipeline_witness :
  ∃ out, bert [0; 2]%Z [0; 1]%Z toy_params 2 = Ok out ∧ shaped 2 2 out.
Proof.
  destruct (bert_encoder_pipeline [0; 2]%Z [0; 1]%Z toy_params 2 3 4 2)
    as (x0 & x1 & states & out & _ & _ & _ & _ & _ & _ & _ & Hrun & Hs & _);
    [compute_done | lia | lia | reflexivity | compute_done | reflexivity
    | compute_done | compute_done |].
  exists out. split; assumption.
Defined.

Lemma bert_accepts_negative_ids_witness :
  ∃ out, bert [-1; 0]%Z [-1; -2]%Z toy_params 2 = Ok out
         ∧ bert [2; 0]%Z [1; 0]%Z toy_params 2 = Ok out.
Proof.
  destruct (bert_accepts_negative_ids [-1; 0]%Z [-1; -2]%Z toy_params 2 3 4 2)
    as [(out & Hneg & Hwrapped & _) _];
    [compute_done | lia | lia | reflexivity | compute_done | reflexivity
    | compute_done | compute_done |].
  exists out. split; assumption.
Defined.


Section LoaderClaims.
Context {T : Type}.
Implicit Types (model : gmap string (tensor T)).

Ltac read_in Hload model key :=
  rewrite (item_lookup model key) in Hload;
  destruct (model !! key) eqn:?; [rewrite bind_Ok in Hload | discriminate Hload].

(** The fused projection of a loaded block is made of the six attention
    tensors of its layer. *)
Lemma load_block_c_attn model i block :
  load_block model i = Ok block →
  ∃ qw qb kw kb vw vb,
    model !! layer_key i "attention.self.query.weight" = Some qw
    ∧ model !! layer_key i "attention.self.query.bias" = Some qb
    ∧ model !! layer_key i "attention.self.key.weight" = Some kw
    ∧ model !! layer_key i "attention.self.key.bias" = Some kb
    ∧ model !! layer_key i "attention.self.value.weight" = Some vw
    ∧ model !! layer_key i "attention.self.value.bias" = Some vb
    ∧ c_attn_of (Linear.Build qw qb) (Linear.Build kw kb) (Linear.Build vw vb)
      = Ok (Attn.c_attn (Block.attn block)).
Proof.
  intros Hload. unfold load_block in Hload.
  read_in Hload model (layer_key i "attention.self.query.weight").
  read_in Hload model (layer_key i "attention.self.query.bias").
  read_in Hload model (layer_key i "attention.self.key.weight").
  read_in Hload model (layer_key i "attention.self.key.bias").
  read_in Hload model (layer_key i "attention.self.value.weight").
  read_in Hload model (layer_key i "attention.self.value.bias").
  cbn zeta in Hload.
  destruct (c_attn_of _ _ _) as [c_attn|e] eqn:Hc; [|discriminate Hload].
  rewrite bind_Ok in Hload.
  read_in Hload model (layer_key i "attention.output.dense.weight").
  read_in Hload model (layer_key i "attention.output.dense.bias").
  read_in Hload model (layer_key i "attention.output.LayerNorm.weight").
  read_in Hload model (layer_key i "attention.output.LayerNorm.bias").
  read_in Hload model (layer_key i "intermediate.dense.weight").
  read_in Hload model (layer_key i "intermediate.dense.bias").
  read_in Hload model (layer_key i "output.dense.weight").
  read_in Hload model (layer_key i "output.dense.bias").
  read_in Hload model (layer_key i "output.LayerNorm.weight").
  read_in Hload model (layer_key i "output.LayerNorm.bias").
  injection Hload as <-. cbn [Block.attn Attn.c_attn].
  do 6 eexists. repeat split. exact Hc.
Qed.

Lemma load_Ok_blocks model hp params :
  load_encoder_hparams_and_params model = Ok (hp, params) →
  Forall2 (λ i block, load_block model i = Ok block)
    (seq 0 n_layers) (Params.blocks params).
Proof.
  intros Hload. unfold load_encoder_hparams_and_params in Hload.
  read_in Hload model (emb_key "word_embeddings.weight").
  read_in Hload model (emb_key "position_embeddings.weight").
  read_in Hload model (emb_key "token_type_embeddings.weight").
  read_in Hload model (emb_key "LayerNorm.weight").
  read_in Hload model (emb_key "LayerNorm.bias").
  cbn zeta in Hload.
  destruct (mapM (load_block model) (seq 0 n_layers)) as [blocks|e] eqn:Hblocks;
    [rewrite bind_Ok in Hload | discriminate Hload].
  read_in Hload model "pooler.dense.weight".
  read_in Hload model "pooler.dense.bias".
  injection Hload as _ <-. apply mapM_Ok_inv. exact Hblocks.
Qed.

(** Everything a loaded block holds, by the names of the store. *)
Lemma load_block_contents model i block :
  load_block model i = Ok block →
  ∃ qw qb kw kb vw vb pw pb g1 b1 fw fb ow ob g2 b2,
    model !! layer_key i "attention.self.query.weight" = Some qw
    ∧ model !! layer_key i "attention.self.query.bias" = Some qb
    ∧ model !! layer_key i "attention.self.key.weight" = Some kw
    ∧ model !! layer_key i "attention.self.key.bias" = Some kb
    ∧ model !! layer_key i "attention.self.value.weight" = Some vw
    ∧ model !! layer_key i "attention.self.value.bias" = Some vb
    ∧ model !! layer_key i "attention.output.dense.weight" = Some pw
    ∧ model !! layer_key i "attention.output.dense.bias" = Some pb
    ∧ model !! layer_key i "attention.output.LayerNorm.weight" = Some g1
    ∧ model !! layer_key i "attention.output.LayerNorm.bias" = Some b1
    ∧ model !! layer_key i "intermediate.dense.weight" = Some fw
    ∧ model !! layer_key i "intermediate.dense.bias" = Some fb
    ∧ model !! layer_key i "output.dense.weight" = Some ow
    ∧ model !! layer_key i "output.dense.bias" = Some ob
    ∧ model !! layer_key i "output.LayerNorm.weight" = Some g2
    ∧ model !! layer_key i "output.LayerNorm.bias" = Some b2
    ∧ np_hstack [tensor_T qw; tensor_T kw; tensor_T vw]
      = Ok (Linear.w (Attn.c_attn (Block.attn block)))
    ∧ np_hstack [qb; kb; vb] = Ok (Linear.b (Attn.c_attn (Block.attn block)))
    ∧ Attn.c_proj (Block.attn block) = Linear.Build (tensor_T pw) pb
    ∧ Block.ln_1 block = LayerNorm.Build g1 b1
    ∧ Mlp.c_fc (Block.mlp block) = Linear.Build (tensor_T fw) fb
    ∧ Mlp.c_proj (Block.mlp block) = Linear.Build (tensor_T ow) ob
    ∧ Block.ln_2 block = LayerNorm.Build g2 b2.
Proof.
  intros Hload. unfold load_block in Hload.
  read_in Hload model (layer_key i "attention.self.query.weight").
  read_in Hload model (layer_key i "attention.self.query.bias").
  read_in Hload model (layer_key i "attention.self.key.weight").
  read_in Hload model (layer_key i "attention.self.key.bias").
  read_in Hload model (layer_key i "attention.self.value.weight").
  read_in Hload model (layer_key i "attention.self.value.bias").
  cbn zeta in Hload.
  destruct (c_attn_of _ _ _) as [c_attn|e] eqn:Hc; [|discriminate Hload].
  rewrite bind_Ok in Hload.
  unfold c_attn_of in Hc. cbn [Linear.w Linear.b] in Hc.
  destruct (np_hstack [tensor_T _; tensor_T _; tensor_T _]) as [w|e] eqn:Hw;
    [|discriminate Hc].
  rewrite bind_Ok in Hc. cbn beta in Hc.
  match type of Hc with
  | context [np_hstack ?l] => destruct (np_hstack l) as [b|e] eqn:Hb; [|discriminate Hc]
  end.
  rewrite bind_Ok in Hc. injection Hc as <-.
  read_in Hload model (layer_key i "attention.output.dense.weight").
  read_in Hload model (layer_key i "attention.output.dense.bias").
  read_in Hload model (layer_key i "attention.output.LayerNorm.weight").
  read_in Hload model (layer_key i "attention.output.LayerNorm.bias").
  read_in Hload model (layer_key i "intermediate.dense.weight").
  read_in Hload model (layer_key i "intermediate.dense.bias").
  read_in Hload model (layer_key i "output.dense.weight").
  read_in Hload model (layer_key i "output.dense.bias").
  read_in Hload model (layer_key i "output.LayerNorm.weight").
  read_in Hload model (layer_key i "output.LayerNorm.bias").
  injection Hload as <-. do 16 eexists. repeat split; assumption.
Qed.

End LoaderClaims.

Section FusedClaim.
Context {T : Type} `{Arith T}.

(** C4: the loader stacks the transposes of the query, key and value
    weights of a layer, each stored as [[out_dim, in_dim]], along the last
    axis, and concatenates the three biases; for every input, one pass
    through this projection split in three equal chunks is exactly the
    three separate projections. *)
Theorem fused_qkv_projection (model : gmap string (tensor T)) (i : nat)
    (hp : hparams) (params : Params.t (tensor T) (tensor T))
    (block : Block.t (tensor T) (tensor T))
    (qw kw vw : list (list T)) (qb kb vb : list T) (h d : nat) :
  model !! layer_key i "attention.self.query.weight" = Some (Mat qw) →
  model !! layer_key i "attention.self.query.bias" = Some (Vec qb) →
  model !! layer_key i "attention.self.key.weight" = Some (Mat kw) →
  model !! layer_key i "attention.self.key.bias" = Some (Vec kb) →
  model !! layer_key i "attention.self.value.weight" = Some (Mat vw) →
  model !! layer_key i "attention.self.value.bias" = Some (Vec vb) →
  shaped h d qw → shaped h d kw → shaped h d vw →
  length qb = h → length kb = h → length vb = h → 0 < h → 0 < d →
  load_encoder_hparams_and_params model = Ok (hp, params) →
  Params.blocks params !! i = Some block →
  let W := zip_with app (zip_with app (transpose qw) (transpose kw)) (transpose vw) in
  let B := qb ++ kb ++ vb in
  Attn.c_attn (Block.attn block) = Linear.Build (Mat W) (Vec B)
  ∧ shaped d (3 * h) W ∧ length B = 3 * h
  ∧ ∀ (x : list (list T)) (L : nat), shaped L d x → 0 < L →
      ∃ Q K V,
        linear x (transpose qw) qb = Ok Q
        ∧ linear x (transpose kw) kb = Ok K
        ∧ linear x (transpose vw) vb = Ok V
        ∧ shaped L h Q ∧ shaped L h K ∧ shaped L h V
        ∧ (fused ← linear x W B; np_split fused 3) = Ok [Q; K; V].
Proof.
  intros Hqw Hqb Hkw Hkb Hvw Hvb Hq Hk Hv Hlq Hlk Hlv Hh Hd Hparams Hblock W B.
  assert (load_block model i = Ok block) as Hload.
  { pose proof (load_Ok_blocks model hp params Hparams) as Hall.
    destruct (Forall2_lookup_r _ _ _ _ _ Hall Hblock) as (j & Hj & Hrun).
    apply lookup_seq in Hj as [-> _]. exact Hrun. }
  destruct (load_block_c_attn model i block Hload)
    as (qw' & qb' & kw' & kb' & vw' & vb' & E1 & E2 & E3 & E4 & E5 & E6 & Hc).
  rewrite Hqw in E1. rewrite Hqb in E2. rewrite Hkw in E3.
  rewrite Hkb in E4. rewrite Hvw in E5. rewrite Hvb in E6.
  injection E1 as <-. injection E2 as <-. injection E3 as <-.
  injection E4 as <-. injection E5 as <-. injection E6 as <-.
  rewrite (c_attn_of_Ok qw kw vw qb kb vb h d Hq Hk Hv Hh) in Hc.
  injection Hc as <-.
  split; [reflexivity|]. split.
  { replace (3 * h) with (h + h + h) by lia.
    repeat apply zip_with_app_shaped; apply transpose_shaped; assumption. }
  split; [unfold B; rewrite !length_app; lia|].
  intros x L Hx HL. apply (fused_linear_splits x qw kw vw qb kb vb L h d); assumption.
Qed.
End FusedClaim.



Lemma fused_qkv_projection_witness :
  ∃ hp params block,
    load_encoder_hparams_and_params toy_store = Ok (hp, params)
    ∧ Params.blocks params !! 0%nat = Some block
    ∧ Attn.c_attn (Block.attn block)
      = Linear.Build (Mat [[1; 3; 1; 3; 1; 3]; [2; 4; 2; 4; 2; 4]]%R)
                     (Vec [1; 2; 1; 2; 1; 2]%R).
Proof.
  destruct (load_encoder_hparams_and_params toy_store) as [[hp params]|e] eqn:Hload;
    [|vm_compute in Hload; discriminate].
  destruct (Params.blocks params !! 0%nat) as [block|] eqn:Hblock.
  2:{ vm_compute in Hload. injection Hload as _ <-. discriminate Hblock. }
  exists hp, params, block. split; [reflexivity|]. split; [exact Hblock|].
  apply (fused_qkv_projection toy_store 0 hp params block
           [[1; 2]; [3; 4]]%R [[1; 2]; [3; 4]]%R [[1; 2]; [3; 4]]%R
           [1; 2]%R [1; 2]%R [1; 2]%R 2 2);
    try (vm_compute; reflexivity); try lia; try compute_done; assumption.
Defined.

(** ** The numeric claims *)

(** Binary64 has one NaN. *)
Lemma nan_unique (a : PrimFloat.float) : PrimFloat.is_nan a = true → a = PrimFloat.nan.
Proof.
  intros Ha. apply FloatAxioms.Prim2SF_inj.
  unfold PrimFloat.is_nan in Ha. apply negb_true_iff in Ha.
  rewrite FloatAxioms.eqb_spec in Ha.
  destruct (FloatOps.Prim2SF a) as [s|s| |s m e]; [| |reflexivity|].
  - destruct s; discriminate Ha.
  - destruct s; discriminate Ha.
  - unfold SpecFloat.SFeqb, SpecFloat.SFcompare in Ha.
    rewrite Z.compare_refl, Pos.compare_refl in Ha. destruct s; discriminate Ha.
Qed.

(** A row of scores that are both [+inf]: the maximum is [+inf], the
    differences are NaN, and NaN is what comes out, whatever the
    exponential makes of finite numbers. *)
Lemma softmax_infinite_scores (exp64 tanh64 : PrimFloat.float → PrimFloat.float)
    (pow64 : PrimFloat.float → Z → PrimFloat.float) :
  (∀ a, PrimFloat.is_nan a = true → PrimFloat.is_nan (exp64 a) = true) →
  @softmax _ _ (binary64 exp64 tanh64 pow64) infinite_scores
  = Ok [[PrimFloat.nan; PrimFloat.nan]].
Proof.
  intros Hexp. pose proof (nan_unique _ (Hexp PrimFloat.nan eq_refl)) as Hnan.
  vm_compute. vm_compute in Hnan. rewrite !Hnan. vm_compute. reflexivity.
Qed.

Section SoftmaxClaim.
Context {T : Type} `{Elementary T}.

(** [softmax1], written out. *)
Lemma softmax1_cons (t : T) (rest : list T) :
  softmax1 (t :: rest)
  = Ok (let m := foldl fmax t rest in
        let e := (λ u, fexp (fsub u m)) <$> t :: rest in
        (λ w, fdiv w (foldl fadd (of_Z 0) e)) <$> e).
Proof. reflexivity. Qed.

End SoftmaxClaim.



Section FinalizerClaim.
Context {T : Type} `{Arith T}.

(** The sum of a column, its entries added from the first row on. *)
#[local] Abbreviation column_sum :=
  (λ col : list T, match col with [] => of_Z 0 | t :: rest => foldl fadd t rest end).

Lemma column_sums_pair (row row' : list T) :
  column_sum <$> ((λ t, [t]) <$> zip_with fadd row row')
  = column_sum <$> zip_with cons row ((λ t, [t]) <$> row').
Proof.
  revert row'. induction row as [|a row IH]; intros [|b row']; try reflexivity.
  cbn [zip_with fmap list_fmap]. rewrite IH. reflexivity.
Qed.

Lemma column_sums_cons (row row' : list T) (cols : list (list T)) :
  column_sum <$> zip_with cons (zip_with fadd row row') cols
  = column_sum <$> zip_with cons row (zip_with cons row' cols).
Proof.
  revert row' cols. induction row as [|a row IH]; intros [|b row'] [|col cols];
    try reflexivity.
  cbn [zip_with fmap list_fmap]. rewrite IH. reflexivity.
Qed.

(** Adding the rows one after the other is summing every column from its
    first entry on: no law of arithmetic is used. *)
Lemma foldl_rows_column_sums (row : list T) (rest : list (list T)) :
  foldl (zip_with fadd) row rest = column_sum <$> transpose (row :: rest).
Proof.
  revert row. induction rest as [|row' rest IH]; intros row.
  - change (transpose [row]) with ((λ t, [t]) <$> row).
    rewrite <- list_fmap_compose. cbn [foldl].
    induction row as [|a row IHrow]; [reflexivity|].
    cbn [fmap list_fmap]. rewrite <- IHrow. reflexivity.
  - cbn [foldl]. rewrite IH. destruct rest as [|row'' rest].
    + apply column_sums_pair.
    + change (transpose (zip_with fadd row row' :: row'' :: rest))
        with (zip_with cons (zip_with fadd row row') (transpose (row'' :: rest))).
      change (transpose (row :: row' :: row'' :: rest))
        with (zip_with cons row (zip_with cons row' (transpose (row'' :: rest)))).
      apply column_sums_cons.
Qed.

End FinalizerClaim.



(** C7 (as stated, refuted): in binary64 the finalizer does not raise on the
    rows [[1, 0]] and [[-1, 0]]: it returns, and both entries of what it
    returns are NaN. *)
Lemma finalizer_zero_mean_is_nan :
  Forall (λ e, PrimFloat.is_nan e = true)
    (mean_pooling_and_normalization cancelling_tokens)
  ∧ length (mean_pooling_and_normalization cancelling_tokens) = 2.
Proof. vm_compute. repeat constructor. Qed.

(** C7 (amended): mean-pooling the rows [[1, 0]] and [[-1, 0]] yields the
    zero vector [[0, 0]], whose L2 norm is 0; normalising it divides zero
    by zero and the finalizer returns [[NaN, NaN]], without any error. *)
Theorem finalizer_zero_mean :
  mean_axis0 cancelling_tokens = [PrimFloat.zero; PrimFloat.zero]
  ∧ norm (mean_axis0 cancelling_tokens) = PrimFloat.zero
  ∧ mean_pooling_and_normalization cancelling_tokens = [PrimFloat.nan; PrimFloat.nan].
Proof. vm_compute. repeat split. Qed.


(** * Further properties of the program *)

(** ** Errors of indexing *)

Lemma getitem_error {A} (a : list A) (i : Z) e : getitem a i = Raise e → e = IndexError.
Proof.
  unfold getitem. cbn zeta. case_decide; [congruence|].
  destruct (a !! _); congruence.
Qed.

Lemma getitem_out_of_range {A} (a : list A) (i : Z) :
  (i < - Z.of_nat (length a) ∨ Z.of_nat (length a) ≤ i)%Z → getitem a i = Raise IndexError.
Proof. intros Hi. unfold getitem. cbn zeta. rewrite decide_True by exact Hi. reflexivity. Qed.

Lemma getitem_Ok_lookup {A} (a : list A) (i : Z) x :
  getitem a i = Ok x → ∃ j, a !! j = Some x.
Proof.
  unfold getitem. cbn zeta. case_decide; [discriminate|].
  destruct (a !! _) eqn:Hj; [|discriminate]. intros [= <-]. eauto.
Qed.

Lemma take_rows_out_of_range {A} (a : list A) (ids : list Z) :
  Exists (λ i, i < - Z.of_nat (length a) ∨ Z.of_nat (length a) ≤ i)%Z ids →
  take_rows a ids = Raise IndexError.
Proof.
  unfold take_rows. induction 1 as [i ids Hi|i ids _ IH]; rewrite mapM_cons.
  - rewrite (getitem_out_of_range a i Hi). reflexivity.
  - destruct (getitem a i) as [x|e] eqn:Hget.
    + rewrite bind_Ok, IH. reflexivity.
    + apply getitem_error in Hget as ->. reflexivity.
Qed.

Lemma take_rows_in_range {A} (a : list A) (ids : list Z) :
  Forall (λ i, - Z.of_nat (length a) ≤ i < Z.of_nat (length a))%Z ids →
  ∃ rows, take_rows a ids = Ok rows ∧ length rows = length ids
          ∧ Forall (λ row, row ∈ a) rows.
Proof.
  intros Hids. rewrite (take_rows_wrap a ids Hids).
  destruct (take_rows_Ok a (wrap (length a) <$> ids)) as (rows & Hrows & Hall).
  { apply Forall_fmap. eapply Forall_impl; [exact Hids|]. intros i Hi.
    apply getitem_wrap. exact Hi. }
  exists rows. split; [exact Hrows|]. split.
  - apply Forall2_length in Hall. rewrite length_fmap in Hall. symmetry. exact Hall.
  - apply Forall_lookup_2. intros p row Hrow.
    destruct (Forall2_lookup_r _ _ _ _ _ Hall Hrow) as (i & _ & Hi).
    eapply list_elem_of_lookup_2. exact Hi.
Qed.

Lemma rows_of_shaped {A} (a rows : list (list A)) r c :
  shaped r c a → Forall (λ row, row ∈ a) rows → shaped (length rows) c rows.
Proof.
  intros [_ Ha] Hrows. split; [reflexivity|].
  eapply Forall_impl; [exact Hrows|]. intros row Hrow.
  eapply Forall_forall in Ha; eauto.
Qed.

Lemma range_length n : length (range n) = n.
Proof. unfold range. rewrite length_fmap, length_seq. reflexivity. Qed.

Lemma range_out_of_range n m :
  m < n → Exists (λ i, i < - Z.of_nat m ∨ Z.of_nat m ≤ i)%Z (range n).
Proof.
  intros Hlt. apply Exists_exists. exists (Z.of_nat m). split; [|lia].
  apply list_elem_of_lookup. exists m. apply range_lookup. exact Hlt.
Qed.

Section IndexErrors.
Context {T : Type} `{Elementary T}.

(** X1: [bert] raises [IndexError] when a token id lies outside
    [[-vocab_size, vocab_size)], when the sequence is longer than the
    position table, and when a segment id lies outside [[-2, 2)]. *)
Theorem bert_raises_index_error (inputs segment_ids : list Z)
    (params : Params.t (list (list T)) (list T)) (n_head : Z) (vocab_size n_ctx d : nat) :
  params_shaped vocab_size n_ctx d params →
  let bad (n : nat) (i : Z) := (i < - Z.of_nat n ∨ Z.of_nat n ≤ i)%Z in
  (Exists (bad vocab_size) inputs →
   bert inputs segment_ids params n_head = Raise IndexError)
  ∧ (Forall (λ i, ¬ bad vocab_size i) inputs → n_ctx < length inputs →
     bert inputs segment_ids params n_head = Raise IndexError)
  ∧ (Forall (λ i, ¬ bad vocab_size i) inputs → length inputs ≤ n_ctx →
     Exists (bad 2) segment_ids →
     bert inputs segment_ids params n_head = Raise IndexError).
Proof.
  intros (Hwte & Hwpe & Hwtte & _) bad.
  destruct params as [ln_0 wte wpe wtte blocks pooler].
  cbn [Params.wte Params.wpe Params.wtte] in *.
  assert (∀ ids, Forall (λ i, ¬ bad vocab_size i) ids →
            ∃ tok, take_rows wte ids = Ok tok ∧ shaped (length ids) d tok) as Htok.
  { intros ids Hids.
    destruct (take_rows_in_range wte ids) as (tok & Htok & Hlen & Hin).
    { rewrite (proj1 Hwte). apply (Forall_impl _ _ _ Hids).
      intros i Hi. unfold bad in Hi. lia. }
    exists tok. split; [exact Htok|]. rewrite <- Hlen.
    exact (rows_of_shaped wte tok _ d Hwte Hin). }
  split; [|split].
  - intros Hbad. unfold bert.
    rewrite (take_rows_out_of_range wte inputs); [reflexivity|].
    rewrite (proj1 Hwte). exact Hbad.
  - intros Hids Hlong. destruct (Htok inputs Hids) as (tok & Htk & _).
    unfold bert.
    rewrite Htk, bind_Ok, (take_rows_out_of_range wpe (range (length inputs))); [reflexivity|].
    rewrite (proj1 Hwpe). apply range_out_of_range. exact Hlong.
  - intros Hids Hlen Hbad. destruct (Htok inputs Hids) as (tok & Htk & Hstok).
    destruct (take_rows_in_range wpe (range (length inputs))) as (pos & Hpos & Hlpos & Hin).
    { rewrite (proj1 Hwpe). apply (Forall_impl _ _ _ (range_bounds _ n_ctx Hlen)).
      intros i Hi. lia. }
    assert (shaped (length inputs) d pos) as Hspos.
    { rewrite range_length in Hlpos. rewrite <- Hlpos.
      exact (rows_of_shaped wpe pos _ d Hwpe Hin). }
    unfold bert. rewrite Htk, bind_Ok, Hpos, bind_Ok.
    rewrite (broadcast2_same fadd tok pos _ d Hstok Hspos), bind_Ok.
    rewrite (take_rows_out_of_range wtte segment_ids); [reflexivity|].
    rewrite (proj1 Hwtte). exact Hbad.
Qed.
End IndexErrors.

Lemma bert_raises_index_error_witness :
  bert [0; 3]%Z [0; 0]%Z toy_params 2 = Raise IndexError
  ∧ bert [0; 1; 2; 0; 1]%Z [0; 0; 0; 0; 0]%Z toy_params 2 = Raise IndexError
  ∧ bert [0; 1]%Z [0; 2]%Z toy_params 2 = Raise IndexError.
Proof.
  destruct (bert_raises_index_error [0; 3]%Z [0; 0]%Z toy_params 2 3 4 2) as (H1 & _ & _);
    [compute_done|].
  destruct (bert_raises_index_error [0; 1; 2; 0; 1]%Z [0; 0; 0; 0; 0]%Z toy_params 2 3 4 2)
    as (_ & H2 & _); [compute_done|].
  destruct (bert_raises_index_error [0; 1]%Z [0; 2]%Z toy_params 2 3 4 2) as (_ & _ & H3);
    [compute_done|].
  split; [|split].
  - apply H1. apply Exists_cons_tl, Exists_cons_hd. lia.
  - apply H2; [repeat constructor; lia | cbn; lia].
  - apply H3; [repeat constructor; lia | cbn; lia |].
    apply Exists_cons_tl, Exists_cons_hd. lia.
Defined.

(** ** Broadcasting of the segment rows *)

Lemma stretch_replicate {A} n (x : A) : stretch n (replicate n x) = replicate n x.
Proof. destruct n as [|[|n]]; reflexivity. Qed.

Lemma mapM_replicate_Ok {A B} (f : A → result B) (x : A) (y : B) n :
  f x = Ok y → mapM f (replicate n x) = Ok (replicate n y).
Proof.
  intros Hf. induction n as [|n IH]; [reflexivity|].
  cbn [replicate]. rewrite mapM_cons, Hf, bind_Ok, IH. reflexivity.
Qed.

Lemma mapM_replicate_Raise {A B} (f : A → result B) (x : A) e n :
  f x = Raise e → 0 < n → mapM f (replicate n x) = Raise e.
Proof.
  intros Hf Hn. destruct n as [|n]; [lia|].
  cbn [replicate]. rewrite mapM_cons, Hf. reflexivity.
Qed.

Lemma take_rows_length {A} (a : list A) (ids : list Z) rows :
  take_rows a ids = Ok rows → length rows = length ids.
Proof.
  intros Hrows. apply mapM_Ok_inv, Forall2_length in Hrows. symmetry. exact Hrows.
Qed.

Section SegmentBroadcast.
Context {T : Type} `{Elementary T}.

Lemma broadcast2_length f (a b y : list (list T)) :
  length a = length b → broadcast2 f a b = Ok y → length y = length a.
Proof.
  intros Hlen. unfold broadcast2. rewrite <- Hlen, bdim_same.
  destruct (bdim (ncols a) (ncols b)) as [c|]; [|discriminate].
  intros [= <-]. rewrite length_zip_with.
  rewrite !stretch_same by (rewrite length_fmap; congruence).
  rewrite !length_fmap. lia.
Qed.

Lemma broadcast2_one_row f (a : list (list T)) (row : list T) :
  0 < length a →
  broadcast2 f a [row] = broadcast2 f a (replicate (length a) row).
Proof.
  intros Ha. unfold broadcast2. cbn [length].
  rewrite length_replicate, bdim_1_r, bdim_same.
  assert (ncols (replicate (length a) row) = length row) as ->.
  { destruct (length a); [lia | reflexivity]. }
  cbn [ncols]. destruct (bdim (ncols a) (length row)) as [c|]; [|reflexivity].
  do 2 f_equal. rewrite fmap_replicate, stretch_replicate. reflexivity.
Qed.

Lemma broadcast2_rows_mismatch f (a b : list (list T)) :
  length a ≠ length b → length a ≠ 1 → length b ≠ 1 →
  broadcast2 f a b = Raise ValueError.
Proof.
  intros Hab Ha Hb. unfold broadcast2, bdim.
  rewrite !decide_False by assumption. reflexivity.
Qed.

(** X2: a single segment id is broadcast over the whole sequence: [bert]
    called with the one-element list [[s]] behaves as with [s] repeated
    for every token, result or exception alike. *)
Theorem bert_broadcasts_single_segment_id (inputs : list Z) (s : Z)
    (params : Params.t (list (list T)) (list T)) (n_head : Z) :
  0 < length inputs →
  bert inputs [s] params n_head
  = bert inputs (replicate (length inputs) s) params n_head.
Proof.
  intros Hlen. destruct params as [ln_0 wte wpe wtte blocks pooler]. unfold bert.
  destruct (take_rows wte inputs) as [tok|e] eqn:Htok; [|reflexivity].
  rewrite !bind_Ok.
  destruct (take_rows wpe (range (length inputs))) as [pos|e] eqn:Hpos; [|reflexivity].
  rewrite !bind_Ok.
  destruct (broadcast2 fadd tok pos) as [s0|e] eqn:Hs0; [|reflexivity].
  rewrite !bind_Ok.
  assert (length s0 = length inputs) as Hl0.
  { apply take_rows_length in Htok, Hpos. rewrite range_length in Hpos.
    rewrite (broadcast2_length fadd tok pos s0) by congruence. exact Htok. }
  unfold take_rows. rewrite mapM_cons, mapM_nil.
  destruct (getitem wtte s) as [row|e] eqn:Hrow.
  - rewrite (mapM_replicate_Ok _ s row _ Hrow), !bind_Ok.
    rewrite (broadcast2_one_row fadd s0 row) by lia. rewrite Hl0. reflexivity.
  - rewrite (mapM_replicate_Raise _ s e _ Hrow Hlen). reflexivity.
Qed.

(** X3: for two or more tokens, a list of segment ids whose length is
    neither the number of tokens nor one makes [bert] raise [ValueError]:
    the segment rows cannot be broadcast against the token rows. *)
Theorem bert_segment_length_mismatch (inputs segment_ids : list Z)
    (params : Params.t (list (list T)) (list T)) (n_head : Z) (vocab_size n_ctx d : nat) :
  params_shaped vocab_size n_ctx d params →
  1 < length inputs ≤ n_ctx →
  Forall (λ i, - Z.of_nat vocab_size ≤ i < Z.of_nat vocab_size)%Z inputs →
  Forall (λ s, -2 ≤ s < 2)%Z segment_ids →
  length segment_ids ≠ length inputs → length segment_ids ≠ 1 →
  bert inputs segment_ids params n_head = Raise ValueError.
Proof.
  intros (Hwte & Hwpe & Hwtte & _) [Hl1 Hl2] Hids Hsegs Hne Hne1.
  destruct params as [ln_0 wte wpe wtte blocks pooler].
  cbn [Params.wte Params.wpe Params.wtte] in *.
  destruct (take_rows_in_range wte inputs) as (tok & Htok & Hltok & Hintok).
  { rewrite (proj1 Hwte). exact Hids. }
  destruct (take_rows_in_range wpe (range (length inputs))) as (pos & Hpos & Hlpos & Hinpos).
  { rewrite (proj1 Hwpe). apply (Forall_impl _ _ _ (range_bounds _ n_ctx Hl2)).
    intros i Hi. lia. }
  destruct (take_rows_in_range wtte segment_ids) as (seg & Hseg & Hlseg & _).
  { rewrite (proj1 Hwtte). exact Hsegs. }
  rewrite range_length in Hlpos.
  assert (shaped (length inputs) d tok) as Hstok.
  { rewrite <- Hltok. exact (rows_of_shaped wte tok _ d Hwte Hintok). }
  assert (shaped (length inputs) d pos) as Hspos.
  { rewrite <- Hlpos. exact (rows_of_shaped wpe pos _ d Hwpe Hinpos). }
  unfold bert. rewrite Htok, bind_Ok, Hpos, bind_Ok.
  rewrite (broadcast2_same fadd tok pos _ d Hstok Hspos), bind_Ok, Hseg, bind_Ok.
  rewrite broadcast2_rows_mismatch; [reflexivity| | |].
  - rewrite length_zip_with. lia.
  - rewrite length_zip_with. lia.
  - lia.
Qed.

Lemma getitem_take {A} (a : list A) (n : nat) (i : Z) :
  n ≤ length a → (0 ≤ i < Z.of_nat n)%Z → getitem (take n a) i = getitem a i.
Proof.
  intros Hn Hi. unfold getitem. cbn zeta. rewrite length_take_le by exact Hn.
  rewrite !decide_False by lia. rewrite lookup_take_lt by lia. reflexivity.
Qed.

(** X4: [bert] reads the position table only at the positions of the
    sequence: two parameter trees whose position tables agree on their
    first [len(inputs)] rows give the same result. *)
Theorem bert_reads_leading_positions (inputs segment_ids : list Z)
    (ln_0 : LayerNorm.t (list T)) (wte wpe wpe' wtte : list (list T))
    (blocks : list (Block.t (list (list T)) (list T)))
    (pooler : Linear.t (list (list T)) (list T)) (n_head : Z) :
  length inputs ≤ length wpe → length inputs ≤ length wpe' →
  take (length inputs) wpe = take (length inputs) wpe' →
  bert inputs segment_ids (Params.Build ln_0 wte wpe wtte blocks pooler) n_head
  = bert inputs segment_ids (Params.Build ln_0 wte wpe' wtte blocks pooler) n_head.
Proof.
  intros Hl Hl' Heq.
  assert (∀ a : list (list T), length inputs ≤ length a →
            take_rows a (range (length inputs))
            = take_rows (take (length inputs) a) (range (length inputs))) as Hrows.
  { intros a Ha. unfold take_rows. apply mapM_ext.
    apply (Forall_impl _ _ _ (range_bounds (length inputs) (length inputs) (le_n _))).
    intros i Hi. symmetry. apply getitem_take; [exact Ha | exact Hi]. }
  unfold bert. rewrite (Hrows wpe Hl), (Hrows wpe' Hl'), Heq. reflexivity.
Qed.
End SegmentBroadcast.

Lemma bert_broadcasts_single_segment_id_witness :
  bert [0; 2; 1]%Z [1]%Z toy_params 2 = bert [0; 2; 1]%Z [1; 1; 1]%Z toy_params 2.
Proof. apply (bert_broadcasts_single_segment_id [0; 2; 1]%Z 1 toy_params 2). cbn. lia. Defined.

Lemma bert_segment_length_mismatch_witness :
  bert [0; 2; 1]%Z [0; 1]%Z toy_params 2 = Raise ValueError.
Proof.
  apply (bert_segment_length_mismatch [0; 2; 1]%Z [0; 1]%Z toy_params 2 3 4 2);
    [compute_done | cbn; lia | repeat constructor; lia | repeat constructor; lia
    | cbn; lia | cbn; lia].
Defined.

Lemma bert_reads_leading_positions_witness :
  bert [0; 2]%Z [0; 1]%Z toy_params 2
  = bert [0; 2]%Z [0; 1]%Z
      (Params.Build (toy_norm 2) [[1; 2]; [3; 4]; [5; 6]]%R [[1; 1]; [1; 1]; [7; 9]]%R
         [[0; 1]; [1; 0]]%R [toy_block] (toy_linear 2 2)) 2.
Proof.
  apply (bert_reads_leading_positions [0; 2]%Z [0; 1]%Z (toy_norm 2)
           [[1; 2]; [3; 4]; [5; 6]]%R (const_mat 4 2 1%R) [[1; 1]; [1; 1]; [7; 9]]%R);
    [cbn; lia | cbn; lia | reflexivity].
Defined.

(** ** The number of heads *)

Section HeadCount.
Context {T : Type} `{Elementary T}.

Lemma np_split_bad_sections {A} (x : list (list A)) L d (sections : Z) :
  shaped L d x → 0 < L →
  (sections = 0%Z → np_split x sections = Raise ZeroDivisionError)
  ∧ (sections ≠ 0%Z → (sections < 0)%Z ∨ (Z.of_nat d `mod` sections ≠ 0)%Z →
     np_split x sections = Raise ValueError).
Proof.
  intros Hx HL. unfold np_split. cbn zeta. rewrite (shaped_ncols _ _ _ Hx HL). split.
  - intros ->. reflexivity.
  - intros Hne Hbad. rewrite decide_False by exact Hne.
    case_decide; [reflexivity|]. rewrite decide_True by lia. reflexivity.
Qed.

Lemma mha_bad_heads x (attn : Attn.t (list (list T)) (list T)) (n_head : Z) L d :
  shaped L d x → 0 < L → 0 < d → attn_shaped d attn →
  (n_head = 0%Z →
   mha x (Attn.c_attn attn) (Attn.c_proj attn) n_head = Raise ZeroDivisionError)
  ∧ (n_head ≠ 0%Z → (n_head < 0)%Z ∨ (Z.of_nat d `mod` n_head ≠ 0)%Z →
     mha x (Attn.c_attn attn) (Attn.c_proj attn) n_head = Raise ValueError).
Proof.
  intros Hx HL Hd [[Hw Hb] _].
  destruct (linear_returns x _ _ L d (3 * d) Hx Hw Hb HL Hd) as (fused & Hfused & Hsf).
  assert (shaped L d (cols_slice 0 d fused)) as Hq.
  { apply (cols_slice_shaped fused L (3 * d)); [exact Hsf | lia]. }
  destruct (np_split_bad_sections (cols_slice 0 d fused) L d n_head Hq HL) as [Hzero Hneg].
  unfold mha. rewrite Hfused, bind_Ok, (np_split_thirds fused L d Hsf HL), bind_Ok, mapM_cons.
  split.
  - intros Hn. rewrite (Hzero Hn). reflexivity.
  - intros Hn Hbad. rewrite (Hneg Hn Hbad). reflexivity.
Qed.

(** The embedding stage of [bert]: the sum of the three tables and the
    first layer norm, before any block runs. *)
Lemma bert_embedding_stage (inputs segment_ids : list Z)
    (params : Params.t (list (list T)) (list T)) (vocab_size n_ctx d : nat) :
  params_shaped vocab_size n_ctx d params → 0 < d →
  0 < length inputs ≤ n_ctx → length segment_ids = length inputs →
  Forall (λ i, - Z.of_nat vocab_size ≤ i < Z.of_nat vocab_size)%Z inputs →
  Forall (λ s, -2 ≤ s < 2)%Z segment_ids →
  ∃ x1, shaped (length inputs) d x1
    ∧ ∀ n_head, bert inputs segment_ids params n_head
                = for_each (λ x block, transformer_block x block n_head) x1
                    (Params.blocks params).
Proof.
  intros (Hwte & Hwpe & Hwtte & [Hg0 Hb0] & _) Hd [Hl1 Hl2] Hlseg Hids Hsegs.
  destruct params as [ln_0 wte wpe wtte blocks pooler].
  cbn [Params.wte Params.wpe Params.wtte Params.ln_0 Params.blocks] in *.
  destruct (take_rows_in_range wte inputs) as (tok & Htok & Hltok & Hintok).
  { rewrite (proj1 Hwte). exact Hids. }
  destruct (take_rows_in_range wpe (range (length inputs))) as (pos & Hpos & Hlpos & Hinpos).
  { rewrite (proj1 Hwpe). apply (Forall_impl _ _ _ (range_bounds _ n_ctx Hl2)).
    intros i Hi. lia. }
  destruct (take_rows_in_range wtte segment_ids) as (seg & Hseg & Hlsg & Hinseg).
  { rewrite (proj1 Hwtte). exact Hsegs. }
  rewrite range_length in Hlpos.
  assert (shaped (length inputs) d tok) as Hstok.
  { rewrite <- Hltok. exact (rows_of_shaped wte tok _ d Hwte Hintok). }
  assert (shaped (length inputs) d pos) as Hspos.
  { rewrite <- Hlpos. exact (rows_of_shaped wpe pos _ d Hwpe Hinpos). }
  assert (shaped (length inputs) d seg) as Hsseg.
  { rewrite <- Hlseg, <- Hlsg. exact (rows_of_shaped wtte seg _ d Hwtte Hinseg). }
  pose proof (shaped_zip_with _ _ fadd tok pos Hstok Hspos) as Hs0.
  pose proof (shaped_zip_with _ _ fadd _ seg Hs0 Hsseg) as Hx0.
  destruct (layer_norm_shaped _ (LayerNorm.g ln_0) (LayerNorm.b ln_0) _ d Hx0 Hl1 Hd Hg0 Hb0)
    as (x1 & Hx1 & Hsx1).
  exists x1. split; [exact Hsx1|]. intros n_head. unfold bert.
  rewrite Htok, bind_Ok, Hpos, bind_Ok.
  rewrite (broadcast2_same fadd tok pos _ d Hstok Hspos), bind_Ok, Hseg, bind_Ok.
  rewrite (broadcast2_same fadd _ seg _ d Hs0 Hsseg), bind_Ok, Hx1, bind_Ok.
  reflexivity.
Qed.

(** X5: with at least one block, [bert] fails on a bad number of heads
    for every valid input: [n_head = 0] raises [ZeroDivisionError], a
    negative [n_head] or one that does not divide the hidden dimension
    raises [ValueError]. *)
Theorem bert_rejects_bad_head_count (inputs segment_ids : list Z)
    (params : Params.t (list (list T)) (list T)) (n_head : Z) (vocab_size n_ctx d : nat) :
  params_shaped vocab_size n_ctx d params → 0 < d →
  Params.blocks params ≠ [] →
  0 < length inputs ≤ n_ctx → length segment_ids = length inputs →
  Forall (λ i, - Z.of_nat vocab_size ≤ i < Z.of_nat vocab_size)%Z inputs →
  Forall (λ s, -2 ≤ s < 2)%Z segment_ids →
  (n_head = 0%Z → bert inputs segment_ids params n_head = Raise ZeroDivisionError)
  ∧ (n_head ≠ 0%Z → (n_head < 0)%Z ∨ (Z.of_nat d `mod` n_head ≠ 0)%Z →
     bert inputs segment_ids params n_head = Raise ValueError).
Proof.
  intros Hp Hd Hblocks Hlen Hlseg Hids Hsegs.
  destruct (bert_embedding_stage inputs segment_ids params vocab_size n_ctx d
              Hp Hd Hlen Hlseg Hids Hsegs) as (x1 & Hx1 & Hbert).
  destruct Hp as (_ & _ & _ & _ & Hbs).
  destruct (Params.blocks params) as [|block rest] eqn:Hb; [congruence|].
  apply Forall_cons in Hbs as [(_ & Hattn & _) _].
  destruct (mha_bad_heads x1 (Block.attn block) n_head _ d Hx1 (proj1 Hlen) Hd Hattn)
    as [Hzero Hneg].
  rewrite Hbert. cbn [for_each]. unfold transformer_block. destruct block as [mlp attn ln_1 ln_2].
  cbn [Block.attn] in *. split.
  - intros Hn. rewrite (Hzero Hn). reflexivity.
  - intros Hn Hbad. rewrite (Hneg Hn Hbad). reflexivity.
Qed.

(** X6: on an array with at least one row, [softmax] raises [ValueError]
    exactly when the rows are empty (the maximum of an empty row does not
    exist), and returns an array of the same shape otherwise. *)
Theorem softmax_fails_iff_rows_empty (x : list (list T)) (r c : nat) :
  shaped r c x → 0 < r →
  (softmax x = Raise ValueError ↔ c = 0)
  ∧ (c ≠ 0 → ∃ y, softmax x = Ok y ∧ shaped r c y).
Proof.
  intros Hx Hr.
  assert (c ≠ 0 → ∃ y, softmax x = Ok y ∧ shaped r c y) as Hok.
  { intros Hc. apply softmax_shaped; [exact Hx | lia]. }
  split; [|exact Hok]. split.
  - intros Hraise. destruct (decide (c = 0)) as [Hc|Hc]; [exact Hc|].
    destruct (Hok Hc) as (y & Hy & _). congruence.
  - intros ->. destruct x as [|row x]; [destruct Hx as [Hx _]; cbn in Hx; lia|].
    destruct Hx as [_ Hrows]. apply Forall_cons in Hrows as [Hrow _].
    apply nil_length_inv in Hrow as ->.
    unfold softmax. rewrite mapM_cons. reflexivity.
Qed.
End HeadCount.

Lemma bert_rejects_bad_head_count_witness :
  bert [0; 2]%Z [0; 1]%Z toy_params 0 = Raise ZeroDivisionError
  ∧ bert [0; 2]%Z [0; 1]%Z toy_params (-2) = Raise ValueError
  ∧ bert [0; 2]%Z [0; 1]%Z toy_params 3 = Raise ValueError.
Proof.
  assert (∀ n_head,
            (n_head = 0%Z → bert [0; 2]%Z [0; 1]%Z toy_params n_head = Raise ZeroDivisionError)
            ∧ (n_head ≠ 0%Z → (n_head < 0)%Z ∨ (Z.of_nat 2 `mod` n_head ≠ 0)%Z →
               bert [0; 2]%Z [0; 1]%Z toy_params n_head = Raise ValueError)) as Hall.
  { intros n_head.
    apply (bert_rejects_bad_head_count [0; 2]%Z [0; 1]%Z toy_params n_head 3 4 2);
      [compute_done | lia | discriminate | cbn; lia | reflexivity
      | repeat constructor; lia | repeat constructor; lia]. }
  split; [|split].
  - apply (Hall 0%Z). reflexivity.
  - apply (Hall (-2)%Z); [lia | left; lia].
  - apply (Hall 3%Z); [lia | right; compute; discriminate].
Defined.

Lemma softmax_fails_iff_rows_empty_witness :
  softmax (T := R) [[]; []] = Raise ValueError.
Proof.
  apply (softmax_fails_iff_rows_empty (T := R) [[]; []] 2 0); [compute_done | lia | reflexivity].
Defined.

(** ** Row by row *)

Section RowWise.
Context {T : Type} `{Elementary T}.

(** A 2-D array and a column: the entry of the column is combined with
    every entry of its row. *)
Lemma broadcast2_col f (a : list (list T)) (ks : list T) r c :
  shaped r c a → 0 < c → length ks = r →
  broadcast2 f a ((λ k, [k]) <$> ks)
  = Ok (zip_with (λ (row : list T) k, (λ e, f e k) <$> row) a ks).
Proof.
  intros [Hla Ha] Hc Hks. unfold broadcast2.
  rewrite length_fmap, Hks, Hla, bdim_same.
  destruct (decide (a = [])) as [->|Hne].
  { cbn in Hla. subst r. apply nil_length_inv in Hks as ->. reflexivity. }
  assert (ncols a = c) as ->.
  { destruct a; [congruence|]. apply Forall_cons in Ha as [? _]. assumption. }
  assert (ncols ((λ k : T, [k]) <$> ks) = 1) as ->.
  { destruct ks; [|reflexivity]. destruct a; [congruence|]. cbn in *. lia. }
  rewrite bdim_1_r. f_equal.
  rewrite (stretch_fmap_same c a) by exact Ha.
  rewrite (stretch_same r a) by exact Hla.
  rewrite stretch_same by (rewrite !length_fmap; exact Hks).
  rewrite <- list_fmap_compose. clear Hla Hks Hne.
  revert ks. induction Ha as [|row a Hrow Ha IH]; intros [|k ks]; try reflexivity.
  cbn. rewrite <- IH. f_equal.
  apply zip_with_replicate_r. exact Hrow.
Qed.

Lemma zip_with_fmap_same {A B C D} (f : B → C → D) (g : A → B) (h : A → C) (l : list A) :
  zip_with f (g <$> l) (h <$> l) = (λ x, f (g x) (h x)) <$> l.
Proof. induction l as [|x l IH]; [reflexivity|]. cbn. rewrite IH. reflexivity. Qed.

Lemma layer_norm_rows (x : list (list T)) (g b : list T) r c :
  shaped r c x → 0 < r → 0 < c → length g = c → length b = c →
  layer_norm x g b = Ok (layer_norm1 g b <$> x).
Proof.
  intros Hx Hr Hc Hg Hb. unfold layer_norm.
  rewrite (broadcast2_keepdims fsub x mean1 r c Hx Hc). cbn.
  set (centre := λ row : list T, (λ e, fsub e (mean1 row)) <$> row).
  assert (shaped r c (centre <$> x)) as Hcen.
  { eapply shaped_fmap; [exact Hx|]. intros row Hrow. unfold centre.
    rewrite length_fmap. exact Hrow. }
  rewrite (broadcast2_row_l fmul (centre <$> x) g r c Hcen Hr Hg). cbn.
  rewrite <- list_fmap_compose.
  set (scale := (λ row : list T, zip_with fmul g row) ∘ centre).
  assert (shaped r c (scale <$> x)) as Hsc.
  { eapply shaped_fmap; [exact Hx|]. intros row Hrow. unfold scale, centre, compose.
    rewrite length_zip_with, length_fmap. lia. }
  assert (ufunc fsqrt (ufunc (λ v, fadd v eps) (keepdims var1 x))
          = (λ k, [k]) <$> ((λ row, fsqrt (fadd (var1 row) eps)) <$> x)) as ->.
  { unfold ufunc, keepdims. rewrite <- !list_fmap_compose. reflexivity. }
  rewrite (broadcast2_col fdiv (scale <$> x) _ r c Hsc Hc)
    by (rewrite length_fmap; apply Hx).
  cbn. rewrite zip_with_fmap_same.
  erewrite (broadcast2_row_r fadd _ b r c); [| |exact Hr|exact Hb].
  2:{ eapply shaped_fmap; [exact Hx|]. intros row Hrow. unfold scale, centre, compose.
      rewrite length_fmap, length_zip_with, length_fmap. lia. }
  rewrite <- list_fmap_compose. reflexivity.
Qed.

(** X7: [layer_norm] normalises every row on its own: row [i] of the
    result is [g * (row - mean) / sqrt(var + eps) + b] with the mean and
    the variance of row [i] of the input alone. *)
Theorem layer_norm_row_wise (x : list (list T)) (g b : list T) (r c : nat) :
  shaped r c x → 0 < r → 0 < c → length g = c → length b = c →
  ∃ y, layer_norm x g b = Ok y ∧ shaped r c y
    ∧ ∀ i row, x !! i = Some row →
        y !! i = Some (layer_norm1 g b row) ∧ layer_norm [row] g b = Ok [layer_norm1 g b row].
Proof.
  intros Hx Hr Hc Hg Hb. exists (layer_norm1 g b <$> x).
  split; [exact (layer_norm_rows x g b r c Hx Hr Hc Hg Hb)|]. split.
  - eapply shaped_fmap; [exact Hx|]. intros row Hrow. unfold layer_norm1.
    rewrite length_zip_with, length_fmap, length_zip_with, length_fmap. lia.
  - intros i row Hrow. split.
    + rewrite list_lookup_fmap, Hrow. reflexivity.
    + apply (layer_norm_rows [row] g b 1 c); [|lia|exact Hc|exact Hg|exact Hb].
      split; [reflexivity|]. apply Forall_cons_2; [|apply Forall_nil_2].
      exact (shaped_lookup r c x i row Hx Hrow).
Qed.

Lemma ffn_rows (x : list (list T)) (c_fc c_proj : Linear.t (list (list T)) (list T)) L d m :
  shaped L d x → 0 < L → 0 < d → 0 < m →
  linear_shaped d m c_fc → linear_shaped m d c_proj →
  ffn x c_fc c_proj
  = Ok ((λ row,
           zip_with fadd
             (dot (gelu1 <$> zip_with fadd (dot row <$> transpose (Linear.w c_fc))
                               (Linear.b c_fc))
                <$> transpose (Linear.w c_proj))
             (Linear.b c_proj)) <$> x).
Proof.
  intros Hx HL Hd Hm [Hw1 Hb1] [Hw2 Hb2]. unfold ffn.
  rewrite (linear_Ok x _ _ L d m Hx Hw1 Hb1 HL Hd), bind_Ok.
  unfold gelu, ufunc. rewrite <- list_fmap_compose.
  erewrite (linear_Ok _ _ _ L m d); [|  |exact Hw2|exact Hb2|exact HL|exact Hm].
  2:{ eapply shaped_fmap; [exact Hx|]. intros row Hrow. unfold compose.
      rewrite length_fmap, length_zip_with, length_fmap.
      destruct (transpose_shaped d m (Linear.w c_fc) Hw1 Hd) as [Hlt _]. lia. }
  rewrite <- list_fmap_compose. reflexivity.
Qed.

(** X8: the feed-forward network is applied to every position on its
    own: row [i] of [ffn x] is what [ffn] returns for row [i] of [x]
    alone. *)
Theorem ffn_position_wise (x : list (list T))
    (c_fc c_proj : Linear.t (list (list T)) (list T)) (L d m : nat) :
  shaped L d x → 0 < L → 0 < d → 0 < m →
  linear_shaped d m c_fc → linear_shaped m d c_proj →
  ∃ y, ffn x c_fc c_proj = Ok y ∧ length y = L
    ∧ ∀ i row, x !! i = Some row →
        ∃ out, y !! i = Some out ∧ ffn [row] c_fc c_proj = Ok [out].
Proof.
  intros Hx HL Hd Hm Hfc Hproj. eexists. split; [|split].
  - exact (ffn_rows x c_fc c_proj L d m Hx HL Hd Hm Hfc Hproj).
  - rewrite length_fmap. apply Hx.
  - intros i row Hrow. eexists. split.
    + rewrite list_lookup_fmap, Hrow. reflexivity.
    + apply (ffn_rows [row] c_fc c_proj 1 d m); [|lia|exact Hd|exact Hm|exact Hfc|exact Hproj].
      split; [reflexivity|]. apply Forall_cons_2; [|apply Forall_nil_2].
      exact (shaped_lookup L d x i row Hx Hrow).
Qed.
End RowWise.

Lemma layer_norm_row_wise_witness :
  ∃ y, layer_norm toy_x [1; 1]%R [0; 0]%R = Ok y
       ∧ y !! 1 = Some (layer_norm1 [1; 1]%R [0; 0]%R [3; 4]%R).
Proof.
  destruct (layer_norm_row_wise toy_x [1; 1]%R [0; 0]%R 3 2) as (y & Hy & _ & Hrows);
    [compute_done | lia | lia | reflexivity | reflexivity |].
  exists y. split; [exact Hy|]. apply (Hrows 1 [3; 4]%R). reflexivity.
Defined.

Lemma ffn_position_wise_witness :
  ∃ y out, ffn toy_x (toy_linear 2 3) (toy_linear 3 2) = Ok y
           ∧ y !! 2 = Some out
           ∧ ffn [[5; 6]%R] (toy_linear 2 3) (toy_linear 3 2) = Ok [out].
Proof.
  destruct (ffn_position_wise toy_x (toy_linear 2 3) (toy_linear 3 2) 3 2 3)
    as (y & Hy & _ & Hrows);
    [compute_done | lia | lia | lia | compute_done | compute_done |].
  destruct (Hrows 2 [5; 6]%R) as (out & Hout & Hone); [reflexivity|].
  exists y, out. split; [exact Hy|]. split; [exact Hout | exact Hone].
Defined.

(** ** The maximum with zero *)

Section RealActivations.
Open Scope R_scope.
Implicit Types (v row : list R) (x : list (list R)).

(** X10: over the real numbers [relu] returns an array without negative
    entries, leaves an array without negative entries as it is, and
    applying it twice is applying it once. *)
Theorem relu_clamps_at_zero x :
  Forall (Forall (λ y, 0 <= y)) (relu x)
  ∧ (Forall (Forall (λ e, 0 <= e)) x → relu x = x)
  ∧ relu (relu x) = relu x.
Proof.
  assert (∀ x, Forall (Forall (λ y, 0 <= y)) (relu x)) as Hpos.
  { intros x'. unfold relu, ufunc. apply Forall_fmap, Forall_true. intros row.
    apply Forall_fmap, Forall_true. intros e. apply Rmax_l. }
  assert (∀ x, Forall (Forall (λ e, 0 <= e)) x → relu x = x) as Hid.
  { intros x' Hx. unfold relu, ufunc. rewrite <- (list_fmap_id x') at 2.
    apply Forall_fmap_ext_1. eapply Forall_impl; [exact Hx|].
    intros row Hrow. rewrite <- (list_fmap_id row) at 2.
    apply Forall_fmap_ext_1. eapply Forall_impl; [exact Hrow|].
    intros e He. apply Rmax_right. exact He. }
  split; [apply Hpos|]. split; [apply Hid|]. apply Hid, Hpos.
Qed.
End RealActivations.

Lemma relu_clamps_at_zero_witness : relu [[1; 0]%R] = [[1; 0]%R].
Proof.
  apply (relu_clamps_at_zero [[1; 0]%R]). repeat constructor; lra.
Defined.

(** ** The script *)

Lemma transpose_column {A} (row : list A) :
  row ≠ [] → transpose ((λ t, [t]) <$> row) = [row].
Proof.
  induction row as [|t row IH]; [congruence|]. intros _.
  destruct row as [|t' row]; [reflexivity|].
  change (transpose ((λ t, [t]) <$> t :: t' :: row))
    with (zip_with cons [t] (transpose ((λ t, [t]) <$> t' :: row))).
  rewrite IH by discriminate. reflexivity.
Qed.

Lemma transpose_zip_with_cons {A} (row : list A) (cols : list (list A)) :
  row ≠ [] → length row = length cols →
  transpose (zip_with cons row cols) = row :: transpose cols.
Proof.
  revert cols. induction row as [|t row IH]; [congruence|].
  intros [|col cols] _ Hlen; [discriminate|].
  destruct row as [|t' row].
  - destruct cols; [reflexivity | discriminate].
  - destruct cols as [|col' cols]; [discriminate|].
    change (transpose (zip_with cons (t :: t' :: row) (col :: col' :: cols)))
      with (zip_with cons (t :: col)
              (transpose (zip_with cons (t' :: row) (col' :: cols)))).
    rewrite IH; [reflexivity | discriminate | cbn in *; lia].
Qed.

Lemma transpose_involutive {A} (a : list (list A)) r c :
  shaped r c a → 0 < r → 0 < c → transpose (transpose a) = a.
Proof.
  revert r. induction a as [|row rest IH]; intros r Ha Hr Hc.
  { destruct Ha as [Ha _]. cbn in Ha. lia. }
  destruct (shaped_cons_inv r c row rest Ha) as (r' & -> & Hrow & Hrest).
  assert (row ≠ []) as Hne by (intros ->; cbn in Hrow; lia).
  destruct rest as [|row' rest].
  - cbn [transpose]. apply transpose_column. exact Hne.
  - change (transpose (row :: row' :: rest))
      with (zip_with cons row (transpose (row' :: rest))).
    assert (0 < r') as Hr' by (destruct Hrest as [Hl _]; cbn in Hl; lia).
    rewrite transpose_zip_with_cons; [|exact Hne|].
    + rewrite (IH r' Hrest Hr' Hc). reflexivity.
    + rewrite Hrow. symmetry. apply (transpose_shaped r' c _ Hrest Hr').
Qed.

Lemma np_vstack_Ok {A} (arrays : list (list A)) d :
  arrays ≠ [] → Forall (λ v, length v = d) arrays → np_vstack arrays = Ok arrays.
Proof.
  intros Hne Hall. destruct arrays as [|v rest]; [congruence|].
  apply Forall_cons in Hall as [Hv Hrest].
  unfold np_vstack. rewrite decide_True; [reflexivity|].
  eapply Forall_impl; [exact Hrest|]. intros v' Hv'. congruence.
Qed.

Lemma for_each_append {A B} (f : A → result B) (acc : list B) (items : list A) :
  for_each (λ acc item, e ← f item; Ok (acc ++ [e])) acc items
  = (es ← mapM f items; Ok (acc ++ es)).
Proof.
  revert acc. induction items as [|item items IH]; intros acc.
  - rewrite mapM_nil, bind_Ok, app_nil_r. reflexivity.
  - cbn [for_each]. rewrite mapM_cons.
    destruct (f item) as [e|err]; [|reflexivity].
    rewrite !bind_Ok, IH.
    destruct (mapM f items) as [es|err]; [|reflexivity].
    rewrite !bind_Ok, <- app_assoc. reflexivity.
Qed.

Section ScriptFacts.
Context {T : Type} `{Elementary T}.

Lemma foldl_rows_length (row : list T) (rest : list (list T)) d :
  length row = d → Forall (λ r, length r = d) rest →
  length (foldl (zip_with fadd) row rest) = d.
Proof.
  intros Hrow Hrest. revert row Hrow.
  induction Hrest as [|r rest Hr _ IH]; intros row Hrow; [exact Hrow|].
  cbn [foldl]. apply IH. rewrite length_zip_with. lia.
Qed.

Lemma mean_pooling_length (x : list (list T)) L d :
  shaped L d x → 0 < L → length (mean_pooling_and_normalization x) = d.
Proof.
  intros [Hl Hrows] HL. unfold mean_pooling_and_normalization. rewrite length_fmap.
  destruct x as [|row rest]; [cbn in Hl; lia|].
  apply Forall_cons in Hrows as [Hrow Hrest].
  unfold mean_axis0. rewrite length_fmap. apply foldl_rows_length; assumption.
Qed.

Lemma similarity_matrix_Ok (es : list (list T)) N d :
  shaped N d es → 0 < N → 0 < d →
  similarity_matrix es = Ok ((λ e, dot e <$> es) <$> es).
Proof.
  intros Hes HN Hd. unfold similarity_matrix.
  rewrite (np_vstack_Ok es d) by (try apply Hes; intros ->; destruct Hes; cbn in *; lia).
  rewrite bind_Ok.
  rewrite (matmul_Ok es (transpose es) N d Hes HN)
    by apply (transpose_shaped N d es Hes HN).
  rewrite (transpose_involutive es N d Hes HN Hd). reflexivity.
Qed.

(** X18: the script, after the load.  For a parameter tree of matching
    shapes, a number of heads that divides the hidden dimension and a
    tokenizer whose ids are valid, the script computes for every sentence
    the finalizer of what [bert] returns with all segment ids 0, and the
    matrix it prints has one row and one column per sentence, the entry
    [(i, j)] being the dot product of the embeddings [i] and [j]. *)
Theorem script_prints_pairwise_products (encode : string → list Z)
    (params : Params.t (list (list T)) (list T)) (hp : hparams)
    (sentences : list string) (vocab_size n_ctx d : nat) :
  params_shaped vocab_size n_ctx d params → 0 < d →
  (0 < n_head hp)%Z → (Z.of_nat d `mod` n_head hp = 0)%Z →
  sentences ≠ [] →
  Forall (λ sentence, 0 < length (encode sentence) ≤ n_ctx
                      ∧ Forall (λ i, 0 ≤ i < Z.of_nat vocab_size)%Z (encode sentence))
    sentences →
  ∃ logits embeddings,
    Forall2 (λ sentence out,
               bert (encode sentence) (replicate (length (encode sentence)) 0%Z)
                 params (n_head hp) = Ok out
               ∧ shaped (length (encode sentence)) d out) sentences logits
    ∧ embeddings = mean_pooling_and_normalization <$> logits
    ∧ shaped (length sentences) d embeddings
    ∧ similarities encode params hp sentences
      = Ok ((λ e, dot e <$> embeddings) <$> embeddings)
    ∧ shaped (length sentences) (length sentences)
        ((λ e, dot e <$> embeddings) <$> embeddings).
Proof.
  intros Hp Hd Hn Hdiv Hne Hvalid.
  assert (Forall (λ sentence, ∃ out,
            bert (encode sentence) (replicate (length (encode sentence)) 0%Z)
              params (n_head hp) = Ok out
            ∧ shaped (length (encode sentence)) d out) sentences) as Hbert.
  { eapply Forall_impl; [exact Hvalid|]. intros sentence [Hlen Hids].
    destruct (bert_steps (encode sentence) (replicate (length (encode sentence)) 0%Z)
                params (n_head hp) vocab_size n_ctx d Hp Hd Hn Hdiv Hlen)
      as (_ & _ & _ & _ & out & _ & _ & _ & _ & _ & _ & _ & _ & _ & Hs & Hout).
    - apply length_replicate.
    - exact Hids.
    - apply Forall_replicate. lia.
    - exists out. split; [exact Hout | exact Hs]. }
  assert (∃ logits,
            Forall2 (λ sentence out,
               bert (encode sentence) (replicate (length (encode sentence)) 0%Z)
                 params (n_head hp) = Ok out
               ∧ shaped (length (encode sentence)) d out) sentences logits)
    as (logits & Hlogits).
  { clear Hvalid Hne. induction Hbert as [|sentence rest (out & Hout) _ (logits & IH)].
    - exists []. constructor.
    - exists (out :: logits). constructor; assumption. }
  set (embeddings := mean_pooling_and_normalization <$> logits).
  assert (shaped (length sentences) d embeddings) as Hemb.
  { split.
    - unfold embeddings. rewrite length_fmap. symmetry. exact (Forall2_length _ _ _ Hlogits).
    - unfold embeddings. apply Forall_fmap. apply Forall_lookup_2. intros i out Hi.
      destruct (Forall2_lookup_r _ _ _ _ _ Hlogits Hi) as (sentence & Hs & _ & Hout).
      pose proof (Forall_lookup_1 _ _ _ _ Hvalid Hs) as [Hlen _].
      apply (mean_pooling_length out _ d Hout). lia. }
  assert (mapM (embed encode params (n_head hp)) sentences = Ok embeddings) as Hmap.
  { unfold embeddings. clear Hemb embeddings Hbert Hvalid Hne.
    induction Hlogits as [|sentence out rest logits [Hout _] _ IH]; [reflexivity|].
    assert (embed encode params (n_head hp) sentence
            = Ok (mean_pooling_and_normalization out)) as Hembed.
    { unfold embed. cbn zeta. rewrite Hout. reflexivity. }
    rewrite mapM_cons, Hembed, !bind_Ok, IH. reflexivity. }
  assert (0 < length sentences) as HN by (destruct sentences; [congruence | cbn; lia]).
  exists logits, embeddings. split; [exact Hlogits|]. split; [reflexivity|].
  split; [exact Hemb|]. split.
  - unfold similarities. rewrite for_each_append, Hmap, !bind_Ok. cbn [app].
    exact (similarity_matrix_Ok embeddings _ d Hemb HN Hd).
  - eapply shaped_fmap; [exact Hemb|]. intros e _. rewrite length_fmap. apply Hemb.
Qed.

Lemma getitem_head {A} (row : A) (rest : list A) : getitem (row :: rest) 0 = Ok row.
Proof.
  unfold getitem. cbn zeta. cbn [length].
  rewrite decide_False by lia. rewrite decide_False by lia. reflexivity.
Qed.

(** X19: the script gives every token the segment id 0, so the embedding
    of a sentence is computed from the first row of the segment table
    alone: the other rows of the table can be replaced by anything. *)
Theorem embed_reads_first_segment_row (encode : string → list Z)
    (ln_0 : LayerNorm.t (list T)) (wte wpe : list (list T))
    (row0 : list T) (rest rest' : list (list T))
    (blocks : list (Block.t (list (list T)) (list T)))
    (pooler : Linear.t (list (list T)) (list T)) (n_head : Z) (sentence : string) :
  embed encode (Params.Build ln_0 wte wpe (row0 :: rest) blocks pooler) n_head sentence
  = embed encode (Params.Build ln_0 wte wpe (row0 :: rest') blocks pooler) n_head sentence.
Proof.
  assert (∀ tail : list (list T),
            take_rows (row0 :: tail) (replicate (length (encode sentence)) 0%Z)
            = Ok (replicate (length (encode sentence)) row0)) as Hseg.
  { intros tail. apply mapM_replicate_Ok, getitem_head. }
  unfold embed, bert. cbn zeta. rewrite !Hseg. reflexivity.
Qed.
End ScriptFacts.

Lemma script_prints_pairwise_products_witness :
  ∃ G, similarities toy_encode toy_params {| n_head := 2; n_ctx := 4 |} ["a"; "bc"] = Ok G
       ∧ shaped 2 2 G.
Proof.
  destruct (script_prints_pairwise_products toy_encode toy_params
              {| n_head := 2; n_ctx := 4 |} ["a"; "bc"] 3 4 2)
    as (logits & embeddings & _ & _ & _ & HG & Hshape);
    [compute_done | lia | reflexivity | reflexivity | discriminate | |].
  - repeat constructor; cbn; lia.
  - eexists. split; [exact HG | exact Hshape].
Defined.

(** ** The loader: what it reads and how it fails *)

Lemma mapM_Raise_inv {A B} (f : A → result B) (l : list A) e :
  mapM f l = Raise e → ∃ x, x ∈ l ∧ f x = Raise e.
Proof.
  induction l as [|x l IH]; [discriminate|]. rewrite mapM_cons.
  destruct (f x) as [y|e'] eqn:Hx.
  - rewrite bind_Ok. destruct (mapM f l) as [k|e'] eqn:Hl; [discriminate|].
    intros [= ->]. destruct (IH eq_refl) as (x' & Hin & Hx').
    exists x'. split; [apply list_elem_of_further; exact Hin | exact Hx'].
  - intros [= ->]. exists x. split; [apply list_elem_of_here | exact Hx].
Qed.

Section LoaderReads.
Context {T : Type}.
Implicit Types (model : gmap string (tensor T)).

Lemma layer_key_expected (i : nat) (name : string) :
  i < n_layers → name ∈ layer_names → layer_key i name ∈ expected_keys.
Proof.
  intros Hi Hname. unfold expected_keys.
  apply elem_of_app. right. apply elem_of_app. left.
  apply list_elem_of_bind. exists i. split.
  - unfold layer_keys. apply list_elem_of_fmap_2. exact Hname.
  - apply elem_of_seq. lia.
Qed.

Ltac in_names :=
  unfold layer_names;
  repeat first [apply list_elem_of_here | apply list_elem_of_further].

Lemma np_hstack_error (arrays : list (tensor T)) e :
  np_hstack arrays = Raise e → e = ValueError.
Proof.
  assert (∀ (B : Type) (f : tensor T → result B) l e',
            (∀ a e'', f a = Raise e'' → e'' = ValueError) →
            mapM f l = Raise e' → e' = ValueError) as Hmap.
  { intros B f l e' Hf Hl. apply mapM_Raise_inv in Hl as (a & _ & Ha). eauto. }
  destruct arrays as [|[v|m] rest]; cbn [np_hstack].
  - congruence.
  - destruct (mapM as_vec rest) as [vs|e'] eqn:Hvs; [discriminate|].
    intros [= <-]. apply (Hmap _ as_vec rest e'); [|exact Hvs].
    intros [?|?] e''; cbn; congruence.
  - destruct (mapM as_mat rest) as [ms|e'] eqn:Hms.
    + rewrite bind_Ok. destruct (hstack (m :: ms)) as [s|e''] eqn:Hs; [discriminate|].
      intros [= <-]. unfold hstack in Hs. case_decide; congruence.
    + intros [= <-]. apply (Hmap _ as_mat rest e'); [|exact Hms].
      intros [?|?] e''; cbn; congruence.
Qed.

Lemma c_attn_of_error (q k v : Linear.t (tensor T) (tensor T)) e :
  c_attn_of q k v = Raise e → e = ValueError.
Proof.
  unfold c_attn_of.
  destruct (np_hstack [tensor_T (Linear.w q); _; _]) as [w|e'] eqn:Hw.
  - rewrite bind_Ok.
    destruct (np_hstack [Linear.b q; _; _]) as [b|e'] eqn:Hb; [discriminate|].
    intros [= <-]. exact (np_hstack_error _ _ Hb).
  - intros [= <-]. exact (np_hstack_error _ _ Hw).
Qed.

Ltac read_or_fail Hload model i name :=
  rewrite (item_lookup model (layer_key i name)) in Hload;
  destruct (model !! layer_key i name) eqn:?;
  [rewrite bind_Ok in Hload
  |injection Hload as <-; left; exists name; split; [in_names | split; [reflexivity | assumption]]].

(** One layer fails with [KeyError] for a name of the layer that the
    store does not hold, or with [ValueError] when the query, key and
    value tensors cannot be stacked. *)
Lemma load_block_error model i e :
  load_block model i = Raise e →
  (∃ name, name ∈ layer_names ∧ e = KeyError (layer_key i name)
           ∧ model !! layer_key i name = None)
  ∨ (e = ValueError ∧ qkv_stackable model i = false).
Proof.
  intros Hload. unfold load_block in Hload.
  read_or_fail Hload model i "attention.self.query.weight".
  read_or_fail Hload model i "attention.self.query.bias".
  read_or_fail Hload model i "attention.self.key.weight".
  read_or_fail Hload model i "attention.self.key.bias".
  read_or_fail Hload model i "attention.self.value.weight".
  read_or_fail Hload model i "attention.self.value.bias".
  cbn zeta in Hload.
  destruct (c_attn_of _ _ _) as [c_attn|e'] eqn:Hc.
  2:{ injection Hload as <-. right. split; [exact (c_attn_of_error _ _ _ _ Hc)|].
      unfold qkv_stackable.
      repeat match goal with H : _ !! _ = Some _ |- _ => rewrite H; clear H end.
      rewrite Hc. reflexivity. }
  rewrite bind_Ok in Hload.
  read_or_fail Hload model i "attention.output.dense.weight".
  read_or_fail Hload model i "attention.output.dense.bias".
  read_or_fail Hload model i "attention.output.LayerNorm.weight".
  read_or_fail Hload model i "attention.output.LayerNorm.bias".
  read_or_fail Hload model i "intermediate.dense.weight".
  read_or_fail Hload model i "intermediate.dense.bias".
  read_or_fail Hload model i "output.dense.weight".
  read_or_fail Hload model i "output.dense.bias".
  read_or_fail Hload model i "output.LayerNorm.weight".
  read_or_fail Hload model i "output.LayerNorm.bias".
  discriminate Hload.
Qed.

Ltac read_top Hload model key :=
  rewrite (item_lookup model key) in Hload;
  destruct (model !! key) eqn:?;
  [rewrite bind_Ok in Hload
  |injection Hload as <-; left; exists key;
   split; [reflexivity | split; [|assumption]]].

(** The whole store: the two ways of failing. *)
Lemma load_error model e :
  load_encoder_hparams_and_params model = Raise e →
  (∃ key, e = KeyError key ∧ key ∈ expected_keys ∧ model !! key = None)
  ∨ (e = ValueError ∧ store_stackable model = false).
Proof.
  intros Hload. unfold load_encoder_hparams_and_params in Hload.
  read_top Hload model (emb_key "word_embeddings.weight"); [|compute_done].
  read_top Hload model (emb_key "position_embeddings.weight"); [|compute_done].
  read_top Hload model (emb_key "token_type_embeddings.weight"); [|compute_done].
  read_top Hload model (emb_key "LayerNorm.weight"); [|compute_done].
  read_top Hload model (emb_key "LayerNorm.bias"); [|compute_done].
  cbn zeta in Hload.
  destruct (mapM (load_block model) (seq 0 n_layers)) as [blocks|e'] eqn:Hblocks.
  2:{ injection Hload as <-.
      apply mapM_Raise_inv in Hblocks as (i & Hi & Hblock).
      apply elem_of_seq in Hi.
      destruct (load_block_error model i e' Hblock) as [(name & Hname & -> & Habs)|[-> Hst]].
      - left. exists (layer_key i name). split; [reflexivity|]. split; [|exact Habs].
        apply layer_key_expected; [lia | exact Hname].
      - right. split; [reflexivity|]. unfold store_stackable.
        apply not_true_is_false. intros Hall.
        rewrite forallb_forall in Hall.
        rewrite (Hall i) in Hst; [discriminate|].
        apply in_seq. lia. }
  rewrite bind_Ok in Hload.
  read_top Hload model "pooler.dense.weight"; [|compute_done].
  read_top Hload model "pooler.dense.bias"; [|compute_done].
  discriminate Hload.
Qed.

(** X21: once [torch.load] has returned the store, a dictionary of 1-D
    and 2-D arrays, the rest of the loader can fail in two ways only:
    with [KeyError] for a name it expects and the store does not hold, or
    with [ValueError] because the query, key and value tensors of some
    layer cannot be stacked. *)
Theorem loader_failures model e :
  load_encoder_hparams_and_params model = Raise e →
  (∃ key, e = KeyError key ∧ key ∈ expected_keys ∧ model !! key = None)
  ∨ (e = ValueError ∧ store_stackable model = false).
Proof. exact (load_error model e). Qed.

Lemma item_agree model model' key :
  model !! key = model' !! key → item model key = item model' key.
Proof. unfold item. intros ->. reflexivity. Qed.

Lemma load_block_agree model model' i :
  (∀ name, name ∈ layer_names → model !! layer_key i name = model' !! layer_key i name) →
  load_block model i = load_block model' i.
Proof.
  intros Hagree. unfold load_block.
  rewrite (item_agree model model' (layer_key i "attention.self.query.weight"))
    by (apply Hagree; in_names).
  rewrite (item_agree model model' (layer_key i "attention.self.query.bias"))
    by (apply Hagree; in_names).
  rewrite (item_agree model model' (layer_key i "attention.self.key.weight"))
    by (apply Hagree; in_names).
  rewrite (item_agree model model' (layer_key i "attention.self.key.bias"))
    by (apply Hagree; in_names).
  rewrite (item_agree model model' (layer_key i "attention.self.value.weight"))
    by (apply Hagree; in_names).
  rewrite (item_agree model model' (layer_key i "attention.self.value.bias"))
    by (apply Hagree; in_names).
  rewrite (item_agree model model' (layer_key i "attention.output.dense.weight"))
    by (apply Hagree; in_names).
  rewrite (item_agree model model' (layer_key i "attention.output.dense.bias"))
    by (apply Hagree; in_names).
  rewrite (item_agree model model' (layer_key i "attention.output.LayerNorm.weight"))
    by (apply Hagree; in_names).
  rewrite (item_agree model model' (layer_key i "attention.output.LayerNorm.bias"))
    by (apply Hagree; in_names).
  rewrite (item_agree model model' (layer_key i "intermediate.dense.weight"))
    by (apply Hagree; in_names).
  rewrite (item_agree model model' (layer_key i "intermediate.dense.bias"))
    by (apply Hagree; in_names).
  rewrite (item_agree model model' (layer_key i "output.dense.weight"))
    by (apply Hagree; in_names).
  rewrite (item_agree model model' (layer_key i "output.dense.bias"))
    by (apply Hagree; in_names).
  rewrite (item_agree model model' (layer_key i "output.LayerNorm.weight"))
    by (apply Hagree; in_names).
  rewrite (item_agree model model' (layer_key i "output.LayerNorm.bias"))
    by (apply Hagree; in_names).
  reflexivity.
Qed.

(** X22: the loader reads the 103 names it expects and nothing else: two
    stores that agree on these names give the same result, whatever else
    they hold. *)
Theorem loader_reads_expected_keys_only model model' :
  (∀ key, key ∈ expected_keys → model !! key = model' !! key) →
  load_encoder_hparams_and_params model = load_encoder_hparams_and_params model'.
Proof.
  intros Hagree. unfold load_encoder_hparams_and_params.
  rewrite (item_agree model model' (emb_key "word_embeddings.weight"))
    by (apply Hagree; compute_done).
  rewrite (item_agree model model' (emb_key "position_embeddings.weight"))
    by (apply Hagree; compute_done).
  rewrite (item_agree model model' (emb_key "token_type_embeddings.weight"))
    by (apply Hagree; compute_done).
  rewrite (item_agree model model' (emb_key "LayerNorm.weight"))
    by (apply Hagree; compute_done).
  rewrite (item_agree model model' (emb_key "LayerNorm.bias"))
    by (apply Hagree; compute_done).
  rewrite (item_agree model model' "pooler.dense.weight") by (apply Hagree; compute_done).
  rewrite (item_agree model model' "pooler.dense.bias") by (apply Hagree; compute_done).
  rewrite (mapM_ext (load_block model) (load_block model') (seq 0 n_layers)).
  - reflexivity.
  - apply Forall_forall. intros i Hi. apply elem_of_seq in Hi.
    apply load_block_agree. intros name Hname.
    apply Hagree, layer_key_expected; [lia | exact Hname].
Qed.
End LoaderReads.

Lemma loader_failures_witness :
  ∃ key, key ∈ expected_keys ∧ toy_store_incomplete !! key = None.
Proof.
  destruct (loader_failures toy_store_incomplete
              (KeyError "encoder.layer.3.attention.self.key.weight"))
    as [(key & _ & Hkey & Habs)|[Hv _]]; [vm_compute; reflexivity | | discriminate Hv].
  exists key. split; [exact Hkey | exact Habs].
Defined.

Lemma loader_reads_expected_keys_only_witness :
  load_encoder_hparams_and_params (<["embeddings.position_ids" := Vec [0%R]]> toy_store)
  = load_encoder_hparams_and_params toy_store.
Proof.
  apply loader_reads_expected_keys_only. intros key Hkey.
  apply lookup_insert_ne. intros <-. revert Hkey. compute_done.
Defined.

(** ** The loader: what it returns *)

Section LoaderContents.
Context {T : Type} `{Arith T}.
Implicit Types (model : gmap string (tensor T)).

Ltac read_ok Hload model key :=
  rewrite (item_lookup model key) in Hload;
  destruct (model !! key) eqn:?; [rewrite bind_Ok in Hload | discriminate Hload].

(** The fields of a loaded block, the fused projection apart: the weights
    of the dense layers are the transposed tensors of the store, the biases
    and the parameters of the layer norms are the tensors as they are. *)
Lemma load_block_fields model i block :
  load_block model i = Ok block →
  ∃ pw pb g1 b1 fw fb ow ob g2 b2,
    model !! layer_key i "attention.output.dense.weight" = Some pw
    ∧ model !! layer_key i "attention.output.dense.bias" = Some pb
    ∧ model !! layer_key i "attention.output.LayerNorm.weight" = Some g1
    ∧ model !! layer_key i "attention.output.LayerNorm.bias" = Some b1
    ∧ model !! layer_key i "intermediate.dense.weight" = Some fw
    ∧ model !! layer_key i "intermediate.dense.bias" = Some fb
    ∧ model !! layer_key i "output.dense.weight" = Some ow
    ∧ model !! layer_key i "output.dense.bias" = Some ob
    ∧ model !! layer_key i "output.LayerNorm.weight" = Some g2
    ∧ model !! layer_key i "output.LayerNorm.bias" = Some b2
    ∧ Attn.c_proj (Block.attn block) = Linear.Build (tensor_T pw) pb
    ∧ Block.ln_1 block = LayerNorm.Build g1 b1
    ∧ Mlp.c_fc (Block.mlp block) = Linear.Build (tensor_T fw) fb
    ∧ Mlp.c_proj (Block.mlp block) = Linear.Build (tensor_T ow) ob
    ∧ Block.ln_2 block = LayerNorm.Build g2 b2.
Proof.
  intros Hload. unfold load_block in Hload.
  read_ok Hload model (layer_key i "attention.self.query.weight").
  read_ok Hload model (layer_key i "attention.self.query.bias").
  read_ok Hload model (layer_key i "attention.self.key.weight").
  read_ok Hload model (layer_key i "attention.self.key.bias").
  read_ok Hload model (layer_key i "attention.self.value.weight").
  read_ok Hload model (layer_key i "attention.self.value.bias").
  cbn zeta in Hload.
  destruct (c_attn_of _ _ _) as [c_attn|e] eqn:Hc; [|discriminate Hload].
  rewrite bind_Ok in Hload.
  read_ok Hload model (layer_key i "attention.output.dense.weight").
  read_ok Hload model (layer_key i "attention.output.dense.bias").
  read_ok Hload model (layer_key i "attention.output.LayerNorm.weight").
  read_ok Hload model (layer_key i "attention.output.LayerNorm.bias").
  read_ok Hload model (layer_key i "intermediate.dense.weight").
  read_ok Hload model (layer_key i "intermediate.dense.bias").
  read_ok Hload model (layer_key i "output.dense.weight").
  read_ok Hload model (layer_key i "output.dense.bias").
  read_ok Hload model (layer_key i "output.LayerNorm.weight").
  read_ok Hload model (layer_key i "output.LayerNorm.bias").
  injection Hload as <-. do 10 eexists. repeat split.
Qed.

Lemma load_Ok_block model hp params i block :
  load_encoder_hparams_and_params model = Ok (hp, params) →
  Params.blocks params !! i = Some block →
  i < n_layers ∧ load_block model i = Ok block.
Proof.
  intros Hload Hblock. pose proof (load_Ok_blocks model hp params Hload) as Hall.
  destruct (Forall2_lookup_r _ _ _ _ _ Hall Hblock) as (i' & Hi' & Hb).
  apply lookup_seq in Hi' as [-> Hi]. split; [exact Hi | exact Hb].
Qed.

Lemma load_Ok_stackable model hp params :
  load_encoder_hparams_and_params model = Ok (hp, params) → store_stackable model = true.
Proof.
  intros Hload. pose proof (load_Ok_blocks model hp params Hload) as Hall.
  unfold store_stackable. apply forallb_forall. intros i Hi.
  apply list_elem_of_In, list_elem_of_lookup in Hi as [p Hp].
  destruct (Forall2_lookup_l _ _ _ _ _ Hall Hp) as (block & _ & Hblock).
  destruct (load_block_c_attn model i block Hblock)
    as (qw & qb & kw & kb & vw & vb & Hqw & Hqb & Hkw & Hkb & Hvw & Hvb & Hc).
  unfold qkv_stackable. rewrite Hqw, Hqb, Hkw, Hkb, Hvw, Hvb, Hc. reflexivity.
Qed.

(** X23: on a store that holds every expected name, the loader succeeds
    exactly when the query, key and value tensors of every layer can be
    stacked; otherwise it raises [ValueError]. *)
Theorem loader_on_complete_store model :
  (∀ key, key ∈ expected_keys → is_Some (model !! key)) →
  is_Ok (load_encoder_hparams_and_params model) = store_stackable model
  ∧ (store_stackable model = false →
     load_encoder_hparams_and_params model = Raise ValueError).
Proof.
  intros Hall.
  assert (store_stackable model = false →
          load_encoder_hparams_and_params model = Raise ValueError) as Hfail.
  { intros Hst.
    destruct (load_encoder_hparams_and_params model) as [[hp params]|e] eqn:Hload.
    - rewrite (load_Ok_stackable model hp params Hload) in Hst. discriminate.
    - destruct (load_error model e Hload) as [(key & _ & Hkey & Habs)|[-> _]];
        [|reflexivity].
      destruct (Hall key Hkey) as [a Ha]. congruence. }
  split; [|exact Hfail].
  destruct (store_stackable model) eqn:Hst.
  - pose proof (load_outcome model Hst) as Hout.
    destruct (first_missing model) as [key|] eqn:Hfirst.
    + apply first_missing_in_Some in Hfirst as [Hkey Habs].
      destruct (Hall key Hkey) as [a Ha]. congruence.
    + destruct Hout as (params & -> & _). reflexivity.
  - rewrite (Hfail eq_refl). reflexivity.
Qed.

(** X24: a loaded dense layer computes with the rows of the stored weight:
    the loader stores the transposed weight, so that [linear] gives, for
    every row of its input, the dot product of the row with each row of
    the stored weight, plus the bias.  This holds for the three dense
    layers of every block. *)
Theorem loader_transposes_dense_weights model (hp : hparams)
    (params : Params.t (tensor T) (tensor T)) (i : nat)
    (block : Block.t (tensor T) (tensor T)) (name : string)
    (layer : Block.t (tensor T) (tensor T) → Linear.t (tensor T) (tensor T))
    (w : list (list T)) (b : list T) (m d : nat) :
  load_encoder_hparams_and_params model = Ok (hp, params) →
  Params.blocks params !! i = Some block →
  (name, layer) ∈ [ ("attention.output.dense", λ blk, Attn.c_proj (Block.attn blk));
                    ("intermediate.dense", λ blk, Mlp.c_fc (Block.mlp blk));
                    ("output.dense", λ blk, Mlp.c_proj (Block.mlp blk)) ] →
  model !! layer_key i (name +:+ ".weight") = Some (Mat w) →
  model !! layer_key i (name +:+ ".bias") = Some (Vec b) →
  shaped m d w → length b = m → 0 < m → 0 < d →
  layer block = Linear.Build (Mat (transpose w)) (Vec b)
  ∧ shaped d m (transpose w)
  ∧ ∀ (x : list (list T)) (L : nat), shaped L d x → 0 < L →
      linear x (transpose w) b = Ok ((λ row, zip_with fadd (dot row <$> w) b) <$> x).
Proof.
  intros Hload Hblock Hlayer Hw Hb Hsw Hlb Hm Hd.
  destruct (load_Ok_block model hp params i block Hload Hblock) as [_ Hlb'].
  destruct (load_block_fields model i block Hlb')
    as (pw & pb & g1 & b1 & fw & fb & ow & ob & g2 & b2
        & Hpw & Hpb & _ & _ & Hfw & Hfb & How & Hob & _ & _ & Hcp & _ & Hfc & Hmp & _).
  pose proof (transpose_shaped m d w Hsw Hm) as Hst.
  split; [|split; [exact Hst|]].
  - repeat (apply elem_of_cons in Hlayer as [Hlayer|Hlayer]);
      [| | |apply elem_of_nil in Hlayer; contradiction];
      injection Hlayer as -> ->.
    + change (layer_key i _) with (layer_key i "attention.output.dense.weight") in Hw.
      change (layer_key i _) with (layer_key i "attention.output.dense.bias") in Hb.
      rewrite Hcp. rewrite Hpw in Hw. rewrite Hpb in Hb.
      injection Hw as ->. injection Hb as ->. reflexivity.
    + change (layer_key i _) with (layer_key i "intermediate.dense.weight") in Hw.
      change (layer_key i _) with (layer_key i "intermediate.dense.bias") in Hb.
      rewrite Hfc. rewrite Hfw in Hw. rewrite Hfb in Hb.
      injection Hw as ->. injection Hb as ->. reflexivity.
    + change (layer_key i _) with (layer_key i "output.dense.weight") in Hw.
      change (layer_key i _) with (layer_key i "output.dense.bias") in Hb.
      rewrite Hmp. rewrite How in Hw. rewrite Hob in Hb.
      injection Hw as ->. injection Hb as ->. reflexivity.
  - intros x L Hx HL.
    rewrite (linear_Ok x (transpose w) b L d m Hx Hst Hlb HL Hd).
    rewrite (transpose_involutive w m d Hsw Hm Hd). reflexivity.
Qed.
End LoaderContents.

Lemma loader_on_complete_store_witness :
  load_encoder_hparams_and_params
    (<[layer_key 2 "attention.self.key.weight" := Vec [1%R]]> toy_store)
  = Raise ValueError.
Proof.
  apply loader_on_complete_store.
  - apply Forall_forall. compute_done.
  - vm_compute. reflexivity.
Defined.

Lemma loader_transposes_dense_weights_witness :
  ∃ hp params block,
    load_encoder_hparams_and_params toy_store = Ok (hp, params)
    ∧ Params.blocks params !! 1%nat = Some block
    ∧ Mlp.c_fc (Block.mlp block) = Linear.Build (Mat [[1; 3]; [2; 4]]%R) (Vec [1; 2]%R).
Proof.
  destruct (load_encoder_hparams_and_params toy_store) as [[hp params]|e] eqn:Hload;
    [|vm_compute in Hload; discriminate].
  destruct (Params.blocks params !! 1%nat) as [block|] eqn:Hblock.
  2:{ vm_compute in Hload. injection Hload as _ <-. discriminate Hblock. }
  exists hp, params, block. split; [reflexivity|]. split; [exact Hblock|].
  apply (loader_transposes_dense_weights toy_store hp params 1 block "intermediate.dense"
           (λ blk, Mlp.c_fc (Block.mlp blk)) [[1; 2]; [3; 4]]%R [1; 2]%R 2 2);
    try (vm_compute; reflexivity); try lia; try compute_done; try assumption.
  apply list_elem_of_further, list_elem_of_here.
Defined.

(** ** The loop over the blocks *)

Lemma for_each_app {A B} (body : A → B → result A) (acc : A) (items items' : list B) :
  for_each body acc (items ++ items')
  = (acc' ← for_each body acc items; for_each body acc' items').
Proof.
  revert acc. induction items as [|item items IH]; intros acc; [reflexivity|].
  cbn [app for_each]. destruct (body acc item) as [acc'|e]; [|reflexivity].
  rewrite !bind_Ok. apply IH.
Qed.

Section BlockLoop.
Context {T : Type} `{Elementary T}.

(** X25: [bert] runs the blocks one after the other on the output of the
    one before: with the blocks [blocks ++ blocks'] it returns what the
    blocks [blocks'] make of the result of [bert] with the blocks
    [blocks], and it raises what that shorter run raises. *)
Theorem bert_runs_blocks_in_sequence (inputs segment_ids : list Z)
    (ln_0 : LayerNorm.t (list T)) (wte wpe wtte : list (list T))
    (blocks blocks' : list (Block.t (list (list T)) (list T)))
    (pooler : Linear.t (list (list T)) (list T)) (n_head : Z) :
  bert inputs segment_ids (Params.Build ln_0 wte wpe wtte (blocks ++ blocks') pooler) n_head
  = (x ← bert inputs segment_ids (Params.Build ln_0 wte wpe wtte blocks pooler) n_head;
     for_each (λ x block, transformer_block x block n_head) x blocks').
Proof.
  unfold bert.
  destruct (take_rows wte inputs) as [tok|e]; [|reflexivity]. rewrite !bind_Ok.
  destruct (take_rows wpe (range (length inputs))) as [pos|e]; [|reflexivity].
  rewrite !bind_Ok.
  destruct (broadcast2 fadd tok pos) as [s|e]; [|reflexivity]. rewrite !bind_Ok.
  destruct (take_rows wtte segment_ids) as [seg|e]; [|reflexivity]. rewrite !bind_Ok.
  destruct (broadcast2 fadd s seg) as [x0|e]; [|reflexivity]. rewrite !bind_Ok.
  destruct (layer_norm x0 (LayerNorm.g ln_0) (LayerNorm.b ln_0)) as [x1|e]; [|reflexivity].
  rewrite !bind_Ok. apply for_each_app.
Qed.

(** X26: for a single token, [bert] accepts any non-empty list of segment
    ids: the one token row is broadcast against the segment rows, and the
    result has one row per segment id. *)
Theorem bert_single_token_many_segments (token : Z) (segment_ids : list Z)
    (params : Params.t (list (list T)) (list T)) (n_head : Z) (vocab_size n_ctx d : nat) :
  params_shaped vocab_size n_ctx d params → 0 < d → 0 < n_ctx →
  (0 < n_head)%Z → (Z.of_nat d `mod` n_head = 0)%Z →
  (- Z.of_nat vocab_size ≤ token < Z.of_nat vocab_size)%Z →
  segment_ids ≠ [] → Forall (λ s, -2 ≤ s < 2)%Z segment_ids →
  ∃ out, bert [token] segment_ids params n_head = Ok out
         ∧ shaped (length segment_ids) d out.
Proof.
  intros (Hwte & Hwpe & Hwtte & [Hg0 Hb0] & Hblocks) Hd Hctx Hn Hmod Htoken Hne Hsegs.
  destruct params as [ln_0 wte wpe wtte blocks pooler].
  cbn [Params.wte Params.wpe Params.wtte Params.ln_0 Params.blocks] in *.
  assert (0 < length segment_ids) as Hk by (destruct segment_ids; [congruence | cbn; lia]).
  destruct (take_rows_in_range wte [token]) as (tok & Htok & Hltok & Hintok).
  { rewrite (proj1 Hwte). repeat constructor; lia. }
  destruct (take_rows_in_range wpe (range 1)) as (pos & Hpos & Hlpos & Hinpos).
  { rewrite (proj1 Hwpe). repeat constructor; cbn; lia. }
  destruct (take_rows_in_range wtte segment_ids) as (seg & Hseg & Hlseg & Hinseg).
  { rewrite (proj1 Hwtte). exact Hsegs. }
  pose proof (rows_of_shaped wte tok _ d Hwte Hintok) as Hstok.
  pose proof (rows_of_shaped wpe pos _ d Hwpe Hinpos) as Hspos.
  pose proof (rows_of_shaped wtte seg _ d Hwtte Hinseg) as Hsseg.
  rewrite Hltok in Hstok. rewrite Hlpos in Hspos. rewrite Hlseg in Hsseg.
  cbn [length] in Hstok. change (length (range 1)) with 1 in Hspos.
  pose proof (shaped_zip_with _ _ fadd tok pos Hstok Hspos) as Hs0.
  destruct (broadcast2_shaped fadd (zip_with (zip_with fadd) tok pos) seg
              1 d (length segment_ids) d (length segment_ids) d Hs0 Hsseg)
    as (x0 & Hx0 & Hsx0); [lia | exact Hk | apply bdim_1_l | apply bdim_same |].
  destruct (layer_norm_shaped x0 (LayerNorm.g ln_0) (LayerNorm.b ln_0) _ d Hsx0 Hk Hd Hg0 Hb0)
    as (x1 & Hx1 & Hsx1).
  destruct (for_each_invariant (λ x block, transformer_block x block n_head)
              (shaped (length segment_ids) d) x1 blocks Hsx1) as (out & Hout & Hsout).
  { eapply Forall_impl; [exact Hblocks|]. intros block Hblock x Hx.
    destruct (transformer_block_steps x block n_head (length segment_ids) d)
      as (a & x' & f & x'' & _ & _ & _ & _ & _ & _ & _ & Hs & Hrun); auto.
    eauto. }
  exists out. split; [|exact Hsout]. unfold bert. cbn [length].
  rewrite Htok, bind_Ok, Hpos, bind_Ok.
  rewrite (broadcast2_same fadd tok pos 1 d Hstok Hspos), bind_Ok, Hseg, bind_Ok.
  rewrite Hx0, bind_Ok, Hx1, bind_Ok. exact Hout.
Qed.
End BlockLoop.

Lemma bert_single_token_many_segments_witness :
  ∃ out, bert [2]%Z [0; 1; 1]%Z toy_params 2 = Ok out ∧ shaped 3 2 out.
Proof.
  apply (bert_single_token_many_segments 2 [0; 1; 1]%Z toy_params 2 3 4 2);
    [compute_done | lia | lia | lia | reflexivity | lia | discriminate
    | repeat constructor; lia].
Defined.

(** ** [relu] in binary64 *)

Lemma ltb_leb (a b : PrimFloat.float) :
  PrimFloat.ltb a b = true → PrimFloat.leb a b = true.
Proof.
  rewrite FloatAxioms.ltb_spec, FloatAxioms.leb_spec.
  unfold SpecFloat.SFltb, SpecFloat.SFleb.
  destruct (SpecFloat.SFcompare _ _) as [[| |]|]; congruence.
Qed.

Lemma maximum64_zero (e : PrimFloat.float) :
  maximum64 PrimFloat.zero e = if PrimFloat.leb e PrimFloat.zero then PrimFloat.zero else e.
Proof.
  unfold maximum64. change (PrimFloat.is_nan PrimFloat.zero) with false.
  rewrite orb_false_r. reflexivity.
Qed.

Section ReluBinary64.
Variables (exp64 tanh64 : PrimFloat.float → PrimFloat.float).
Variable (pow64 : PrimFloat.float → Z → PrimFloat.float).

#[local] Abbreviation relu64 := (@relu _ _ (binary64 exp64 tanh64 pow64)).

Lemma relu64_rows (x : list (list PrimFloat.float)) :
  relu64 x
  = (λ row : list PrimFloat.float,
       (λ e, if PrimFloat.leb e PrimFloat.zero then PrimFloat.zero else e) <$> row) <$> x.
Proof.
  unfold relu, ufunc. apply list_fmap_ext. intros _ row _.
  apply list_fmap_ext. intros _ e _. apply maximum64_zero.
Qed.

End ReluBinary64.

